(** * NoteTaker icon generator: [scripts/generate_icon.py]

    A shallow embedding of the icon generator and the properties its
    specification states about it.

    Conventions of the embedding.
    - A Python [float] is read as a real number ([R]): rounding is left out,
      and [math.pi], [math.cos], [math.sin] are [PI], [cos], [sin].
      A Python [int] is a [Z]; [int(x)] is truncation toward zero.
    - A [for] loop that appends to a list is a left fold over its range,
      threading the list.  The calls issued on an [ImageDraw] object are a
      list, in the order they are issued; the image is that list painted
      on the canvas.
    - The imaging library (Pillow) is not part of the repository.  Its
      rasterisation rule, its resampling filter and its per-pixel
      source-over blend are the fields of the class [Imaging]; the
      operations whose result is fixed pixel by pixel ([Image.new],
      [split], [putalpha], [Image.composite]) are written out.
      Where a property speaks of the inside of a polygon, it is stated
      for a library that fills a polygon on the pixels inside it by the
      even-odd rule ([fills_interior]).
    - Output (file writes, directory creation, [print]) is a trace of events;
      whether an operation raises [OSError] is decided by the class
      [Platform], so a theorem holds for every pattern of failures. *)

From Stdlib Require Import Reals Lra Lia List ZArith.
From stdpp Require Import base list strings pretty.
Import ListNotations.

#[local] Set Warnings "-register-all".
#[local] Open Scope R_scope.

(* ===================================================================== *)
(** * Python idioms *)
(* ===================================================================== *)

(** [range(lo, hi)]. *)
Definition range (lo hi : nat) : list nat := seq lo (hi - lo).

(** [for i in range(lo, hi): s = body(i, s)]. *)
Definition for_range {S : Type} (lo hi : nat) (body : nat -> S -> S) (s : S) : S :=
  fold_left (fun acc i => body i acc) (range lo hi) s.

(** [points.append(p)]. *)
Definition append {A : Type} (p : A) (points : list A) : list A := points ++ [p].

(** [int(x)] on a float: truncation toward zero. *)
Definition py_int (x : R) : Z :=
  if Rle_dec 0 x then Int_part x else (- Int_part (- x))%Z.

(** [max(a, b)] on ints. *)
Definition py_max (a b : Z) : Z := Z.max a b.

(* ===================================================================== *)
(** * Path builder: [make_shield_path] *)
(* ===================================================================== *)

Definition Point : Type := R * R.

Definition SIZE : Z := 1024.
Definition PAD : Z := 80.

(** The local variables and the loop bodies of [make_shield_path]. *)
Module Shield.

Definition steps : nat := 40.

Section Locals.
Variables cx cy w h : R.

Definition top_y : R := cy - h / 2.
Definition bot_y : R := cy + h / 2.
(** small radius for top corners *)
Definition top_r : R := w * 0.08.
Definition straight_end : R := top_y + h * 0.50.

(** Body of the first loop: top-left rounded corner. *)
Definition top_left (i : nat) : Point :=
  let angle := PI + (PI / 2) * (INR i / INR (steps / 4)) in
  let px := (cx - w / 2 + top_r) + top_r * cos angle in
  let py := (top_y + top_r) + top_r * sin angle in
  (px, py).

(** Body of the second loop: top-right rounded corner. *)
Definition top_right (i : nat) : Point :=
  let angle := (3 * PI / 2) + (PI / 2) * (INR i / INR (steps / 4)) in
  let px := (cx + w / 2 - top_r) + top_r * cos angle in
  let py := (top_y + top_r) + top_r * sin angle in
  (px, py).

(** The quadratic Bezier expression both curve loops evaluate. *)
Definition bezier (p0 p1 p2 : Point) (t : R) : Point :=
  let px := (1 - t) ^ 2 * fst p0 + 2 * (1 - t) * t * fst p1 + t ^ 2 * fst p2 in
  let py := (1 - t) ^ 2 * snd p0 + 2 * (1 - t) * t * snd p1 + t ^ 2 * snd p2 in
  (px, py).

(** Body of the third loop: right side to bottom point. *)
Definition curve_right (i : nat) : Point :=
  let t := INR i / INR steps in
  let p0 := (cx + w / 2, straight_end) in
  let p1 := (cx + w * 0.25, straight_end + h * 0.35) in
  let p2 := (cx, bot_y) in
  bezier p0 p1 p2 t.

(** Body of the fourth loop: bottom point to left side (mirror). *)
Definition curve_left (i : nat) : Point :=
  let t := INR i / INR steps in
  let p0 := (cx, bot_y) in
  let p1 := (cx - w * 0.25, straight_end + h * 0.35) in
  let p2 := (cx - w / 2, straight_end) in
  bezier p0 p1 p2 t.

End Locals.
End Shield.

Definition make_shield_path (cx cy w h : R) : list Point :=
  let points := [] in
  let points :=
    for_range 0 (Shield.steps / 4 + 1)
      (fun i => append (Shield.top_left cx cy w h i)) points in
  let points :=
    for_range 0 (Shield.steps / 4 + 1)
      (fun i => append (Shield.top_right cx cy w h i)) points in
  let points := append (cx + w / 2, Shield.straight_end cy h) points in
  let points :=
    for_range 1 (Shield.steps + 1)
      (fun i => append (Shield.curve_right cx cy w h i)) points in
  let points :=
    for_range 1 (Shield.steps + 1)
      (fun i => append (Shield.curve_left cx cy w h i)) points in
  let points := append (cx - w / 2, Shield.top_y cy h + Shield.top_r w) points in
  points.

(* ===================================================================== *)
(** * Imaging model *)
(* ===================================================================== *)

(** A pixel of an ["RGBA"] image; a pixel of an ["L"] image is a [Z]. *)
Record RGBA : Type := mkRGBA { red : Z; green : Z; blue : Z; alpha : Z }.

(** A colour tuple given without alpha is opaque on an ["RGBA"] image. *)
Definition rgb (r g b : Z) : RGBA := mkRGBA r g b 255.

(** An image: its size and its pixel at each column [x] and row [y]. *)
Record Image (P : Type) : Type := mkImage {
  width : Z;
  height : Z;
  pixel : Z -> Z -> P
}.
Arguments mkImage {P} _ _ _.
Arguments width {P} _.
Arguments height {P} _.
Arguments pixel {P} _ _ _.

(** The shapes the script draws, with the arguments it passes.  A [line]
    drawn without [width=] has the library's default, written [0]. *)
Inductive Shape : Type :=
| rounded_rectangle (x0 y0 x1 y1 : R) (radius : Z)
| polygon (xy : list Point)
| line (p q : Point) (line_width : Z)
| arc (x0 y0 x1 y1 : R) (start_deg end_deg : Z) (arc_width : Z).

(** One call on an [ImageDraw] object: a shape and its [fill]. *)
Record DrawCall (P : Type) : Type := mkCall { shape : Shape; fill : P }.
Arguments mkCall {P} _ _.
Arguments shape {P} _.
Arguments fill {P} _.

(** What the repository takes from the imaging library without fixing it:
    - [covers s x y]: drawing the shape [s] paints the pixel [(x, y)]
      (the library's rasterisation rule; for [polygon], whether the pixel
      is inside the polygon);
    - [resample img w h]: the pixels of [img] resized to [w] by [h] with the
      LANCZOS filter;
    - [over dst src]: one pixel of [Image.alpha_composite]. *)
Class Imaging : Type := {
  covers : Shape -> Z -> Z -> bool;
  resample : Image RGBA -> Z -> Z -> Z -> Z -> RGBA;
  over : RGBA -> RGBA -> RGBA
}.

(** [Image.new(mode, (w, h), color)]. *)
Definition Image_new {P : Type} (w h : Z) (color : P) : Image P :=
  mkImage w h (fun _ _ => color).

(** [img.split()[3]]: the alpha band of an ["RGBA"] image. *)
Definition alpha_band (img : Image RGBA) : Image Z :=
  mkImage (width img) (height img) (fun x y => alpha (pixel img x y)).

(** [img.putalpha(band)]. *)
Definition putalpha (img : Image RGBA) (band : Image Z) : Image RGBA :=
  mkImage (width img) (height img)
    (fun x y => let p := pixel img x y in
                mkRGBA (red p) (green p) (blue p) (pixel band x y)).

(** The 8-bit blend the library applies under a mask value [m]:
    [m = 255] keeps [a], [m = 0] keeps [b]. *)
Definition blend8 (m a b : Z) : Z :=
  let tmp := (m * a + (255 - m) * b + 128)%Z in
  Z.shiftr (Z.shiftr tmp 8 + tmp) 8.

(** [Image.composite(image1, image2, mask)] on ["L"] images. *)
Definition composite (image1 image2 mask : Image Z) : Image Z :=
  mkImage (width image1) (height image1)
    (fun x y => blend8 (pixel mask x y) (pixel image1 x y) (pixel image2 x y)).

Section Drawing.
Context {PIL : Imaging}.

(** One drawing call: the covered pixels take the fill, the others stay. *)
Definition paint {P : Type} (c : DrawCall P) (img : Image P) : Image P :=
  mkImage (width img) (height img)
    (fun x y => if covers (shape c) x y then fill c else pixel img x y).

(** The calls issued on [ImageDraw.Draw(img)], in order. *)
Definition draw {P : Type} (calls : list (DrawCall P)) (img : Image P) : Image P :=
  fold_left (fun acc c => paint c acc) calls img.

(** [Image.alpha_composite(im1, im2)]. *)
Definition alpha_composite (im1 im2 : Image RGBA) : Image RGBA :=
  mkImage (width im1) (height im1)
    (fun x y => over (pixel im1 x y) (pixel im2 x y)).

(** [img.resize((w, h), Image.LANCZOS)]. *)
Definition resize (img : Image RGBA) (w h : Z) : Image RGBA :=
  mkImage w h (resample img w h).

End Drawing.

(* ===================================================================== *)
(** * Microphone glyph: [draw_microphone] *)
(* ===================================================================== *)

(** The local variables and the calls of [draw_microphone]. *)
Module Mic.

(** light mint for contrast *)
Definition mic_color : RGBA := rgb 220 250 248.
Definition line_color : RGBA := rgb 80 170 165.
Definition num_lines : nat := 5.

Section Locals.
Variables cx cy scale : R.

(** Microphone capsule (pill shape) *)
Definition cap_w : R := 100 * scale.
Definition cap_h : R := 170 * scale.
Definition cap_r : R := cap_w / 2.
Definition cap_top : R := cy - cap_h * 0.45.
Definition cap_bot : R := cap_top + cap_h.

Definition capsule : DrawCall RGBA :=
  mkCall (rounded_rectangle (cx - cap_w / 2) cap_top (cx + cap_w / 2) cap_bot
                            (py_int cap_r))
         mic_color.

(** Grille lines on the capsule *)
Definition grille_top : R := cap_top + cap_h * 0.12.
Definition grille_bot : R := cap_top + cap_h * 0.52.
Definition indent : R := cap_w * 0.22.
Definition grille_width : Z := py_max 2 (py_int (3 * scale)).

Definition grille_line (i : nat) : DrawCall RGBA :=
  let t := INR i / INR (num_lines - 1) in
  let ly := grille_top + (grille_bot - grille_top) * t in
  mkCall (line (cx - cap_w / 2 + indent, ly) (cx + cap_w / 2 - indent, ly)
               grille_width)
         line_color.

(** U-shaped cradle arc *)
Definition arc_w : R := cap_w * 1.7.
Definition arc_h_val : R := cap_h * 0.45.
Definition arc_y : R := cap_bot - cap_h * 0.22.
Definition arc_thickness : Z := py_max 4 (py_int (12 * scale)).

Definition cradle : DrawCall RGBA :=
  mkCall (arc (cx - arc_w / 2) arc_y (cx + arc_w / 2) (arc_y + arc_h_val * 2)
              0 180 arc_thickness)
         mic_color.

(** Stand (vertical bar) *)
Definition stand_w : Z := py_max 4 (py_int (12 * scale)).
Definition stand_top : R := arc_y + arc_h_val.
Definition stand_h : R := 55 * scale.

Definition stand : DrawCall RGBA :=
  mkCall (rounded_rectangle (cx - IZR stand_w / 2) stand_top
                            (cx + IZR stand_w / 2) (stand_top + stand_h)
                            (py_int (IZR stand_w / 2)))
         mic_color.

(** Base (horizontal bar) *)
Definition base_w : R := 90 * scale.
Definition base_h : Z := py_max 4 (py_int (12 * scale)).
Definition base_top : R := stand_top + stand_h - IZR base_h / 3.

Definition base : DrawCall RGBA :=
  mkCall (rounded_rectangle (cx - base_w / 2) base_top
                            (cx + base_w / 2) (base_top + IZR base_h)
                            (py_int (IZR base_h / 2)))
         mic_color.

End Locals.
End Mic.

(** [draw_microphone(draw, cx, cy, scale)]: [calls] are the calls already
    issued on [draw]; the result adds the glyph's, in order. *)
Definition draw_microphone (calls : list (DrawCall RGBA)) (cx cy scale : R)
    : list (DrawCall RGBA) :=
  let calls := append (Mic.capsule cx cy scale) calls in
  let calls :=
    for_range 0 Mic.num_lines (fun i => append (Mic.grille_line cx cy scale i)) calls in
  let calls := append (Mic.cradle cx cy scale) calls in
  let calls := append (Mic.stand cx cy scale) calls in
  let calls := append (Mic.base cx cy scale) calls in
  calls.

(* ===================================================================== *)
(** * Compositor: [create_icon] *)
(* ===================================================================== *)

(** The local variables and the layers of [create_icon]. *)
Module Icon.

Definition bg_radius : Z := py_int (IZR SIZE * 0.22).

(** Shield dimensions *)
Definition shield_w : Z := (SIZE - PAD * 2)%Z.
Definition shield_h : R := IZR shield_w * 1.05.
Definition cx : R := IZR SIZE / 2.
Definition cy : R := IZR SIZE / 2 + 10.

Definition shield_points : list Point :=
  make_shield_path cx cy (IZR shield_w) shield_h.

Definition mid_teal : RGBA := rgb 13 115 119.

Definition shield_top : R := cy - shield_h / 2.
Definition shield_bot : R := cy + shield_h / 2.

(** Top highlight: the loop's range and the row it draws at step [i]. *)
Definition highlight_rows : nat := Z.to_nat (py_int (shield_h * 0.45)).

Definition highlight_alpha (i : nat) : Z :=
  let t := 1 - (INR i / (shield_h * 0.45)) in
  py_int (45 * t).

Definition highlight_line (i : nat) : DrawCall RGBA :=
  let y := shield_top + INR i in
  mkCall (line (0, y) (IZR SIZE, y) 0) (mkRGBA 255 255 255 (highlight_alpha i)).

(** Bottom darkening: the loop's range and the row it draws at step [i]. *)
Definition darkening_rows : nat := Z.to_nat (py_int (shield_h * 0.35)).

Definition darkening_alpha (i : nat) : Z :=
  let t := INR i / (shield_h * 0.35) in
  py_int (35 * t).

Definition darkening_line (i : nat) : DrawCall RGBA :=
  let y := shield_bot - IZR (py_int (shield_h * 0.35)) + INR i in
  mkCall (line (0, y) (IZR SIZE, y) 0) (mkRGBA 0 0 0 (darkening_alpha i)).

(** The calls issued on [gradient_draw], in order. *)
Definition gradient_calls : list (DrawCall RGBA) :=
  let calls := [] in
  let calls := for_range 0 highlight_rows (fun i => append (highlight_line i)) calls in
  let calls := for_range 0 darkening_rows (fun i => append (darkening_line i)) calls in
  calls.

Definition mic_scale : R := IZR shield_w / 820.

Section Layers.
Context {PIL : Imaging}.

(** Background: macOS rounded square, then the shield base colour. *)
Definition base_img : Image RGBA :=
  let img := Image_new SIZE SIZE (mkRGBA 0 0 0 0) in
  draw [ mkCall (rounded_rectangle 0 0 (IZR (SIZE - 1)) (IZR (SIZE - 1)) bg_radius)
                (mkRGBA 245 248 250 255);
         mkCall (polygon shield_points) mid_teal ]
       img.

(** Gradient overlay (lighter at top, darker at bottom), before masking. *)
Definition gradient_img : Image RGBA :=
  draw gradient_calls (Image_new SIZE SIZE (mkRGBA 0 0 0 0)).

(** Mask of the shield shape. *)
Definition mask_img : Image Z :=
  draw [ mkCall (polygon shield_points) 255%Z ] (Image_new SIZE SIZE 0%Z).

(** The gradient after [putalpha(Image.composite(...))]. *)
Definition masked_gradient : Image RGBA :=
  putalpha gradient_img
    (composite (alpha_band gradient_img) (Image_new SIZE SIZE 0%Z) mask_img).

End Layers.
End Icon.

Definition create_icon {PIL : Imaging} : Image RGBA :=
  let img := Icon.base_img in
  let img := alpha_composite img Icon.masked_gradient in
  (* Draw microphone on the composited image *)
  draw (draw_microphone [] Icon.cx (Icon.cy - 10) Icon.mic_scale) img.

(* ===================================================================== *)
(** * Output: events, failures and the [json] encoder *)
(* ===================================================================== *)

(** What a file holds: an encoded image, or text. *)
Inductive FileData : Type :=
| PNG (img : Image RGBA)
| Text (s : string).

(** The operations of the script that reach outside the process. *)
Inductive Event : Type :=
| EvPrint (text : string)
| EvMakedirs (path : string)
| EvSave (path : string) (data : FileData).

(** The events performed so far, oldest first. *)
Definition Trace : Type := list Event.

(** [fails tr e]: after the events [tr], performing [e] raises. *)
Class Platform : Type := { fails : Trace -> Event -> bool }.

Inductive Exn : Type := OSError (during : Event).

Inductive Outcome (A : Type) : Type :=
| Ok (a : A)
| Raise (e : Exn).
Arguments Ok {A} _.
Arguments Raise {A} _.

(** A computation: from the trace so far to an outcome and the new trace.
    An exception keeps what was done before it. *)
Definition IO (A : Type) : Type := Trace -> Outcome A * Trace.

Definition ret {A : Type} (a : A) : IO A := fun tr => (Ok a, tr).

Definition bind {A B : Type} (m : IO A) (k : A -> IO B) : IO B :=
  fun tr => match m tr with
            | (Ok a, tr') => k a tr'
            | (Raise e, tr') => (Raise e, tr')
            end.

Notation "m >>> k" := (bind m (fun _ => k))
  (at level 90, right associativity).

(** An operation that raises [OSError] or happens. *)
Definition perform {OS : Platform} (e : Event) : IO unit :=
  fun tr => if fails tr e then (Raise (OSError e), tr) else (Ok tt, tr ++ [e]).

Definition print {OS : Platform} (text : string) : IO unit := perform (EvPrint text).
Definition makedirs {OS : Platform} (path : string) : IO unit := perform (EvMakedirs path).
Definition save {OS : Platform} (path : string) (data : FileData) : IO unit :=
  perform (EvSave path data).

(** [for x in xs: body(x, acc)], in a computation. *)
Fixpoint for_each {A S : Type} (xs : list A) (body : A -> S -> IO S) (acc : S) : IO S :=
  match xs with
  | [] => ret acc
  | x :: rest => bind (body x acc) (for_each rest body)
  end.

#[local] Open Scope string_scope.

(** [str(n)] and [{n}] in an f-string, for an int. *)
Definition str (n : Z) : string := pretty n.

Definition quote : string := String (Ascii.ascii_of_nat 34) EmptyString.
Definition backslash : string := String (Ascii.ascii_of_nat 92) EmptyString.
Definition newline : string := String (Ascii.ascii_of_nat 10) EmptyString.

(** The values the script hands to [json.dump]; a dict keeps the order in
    which its keys were written. *)
Inductive JSON : Type :=
| JStr (s : string)
| JInt (n : Z)
| JList (items : list JSON)
| JDict (members : list (string * JSON)).

(** A string between quotes, quote and backslash escaped (the script's
    strings hold no other character that [json] escapes). *)
Fixpoint json_escape (s : string) : string :=
  match s with
  | EmptyString => EmptyString
  | String c rest =>
      let c' := String c EmptyString in
      (if String.eqb c' quote then backslash +:+ quote
       else if String.eqb c' backslash then backslash +:+ backslash
       else c') +:+ json_escape rest
  end.

Definition json_string (s : string) : string := quote +:+ json_escape s +:+ quote.

Fixpoint spaces (n : nat) : string :=
  match n with O => EmptyString | S k => " " +:+ spaces k end.

Definition join (sep : string) (parts : list string) : string :=
  match parts with
  | [] => EmptyString
  | p :: rest => fold_left (fun acc q => acc +:+ sep +:+ q) rest p
  end.

(** [json.dumps(v, indent=ind)] at nesting depth [level]. *)
Fixpoint json_encode (ind level : nat) (v : JSON) : string :=
  let nl k := newline +:+ spaces (ind * k) in
  match v with
  | JStr s => json_string s
  | JInt n => str n
  | JList [] => "[]"
  | JList items =>
      "[" +:+ nl (S level)
          +:+ join ("," +:+ nl (S level)) (map (json_encode ind (S level)) items)
          +:+ nl level +:+ "]"
  | JDict [] => "{}"
  | JDict members =>
      "{" +:+ nl (S level)
          +:+ join ("," +:+ nl (S level))
                (map (fun kv => json_string (fst kv) +:+ ": "
                                +:+ json_encode ind (S level) (snd kv)) members)
          +:+ nl level +:+ "}"
  end.

Definition json_dumps (v : JSON) (ind : nat) : string := json_encode ind 0 v.

(* ===================================================================== *)
(** * Exporter: [generate_sizes] and the script's entry point *)
(* ===================================================================== *)

Definition sizes : list (Z * Z) :=
  [ (16, 1); (16, 2);
    (32, 1); (32, 2);
    (128, 1); (128, 2);
    (256, 1); (256, 2);
    (512, 1); (512, 2) ]%Z.

(** [f"icon_{size}x{size}{'@2x' if scale == 2 else ''}.png"] *)
Definition icon_filename (size scale : Z) : string :=
  "icon_" +:+ str size +:+ "x" +:+ str size
          +:+ (if (scale =? 2)%Z then "@2x" else "") +:+ ".png".

Section Exporter.
Context {PIL : Imaging} {OS : Platform}.

(** One turn of the loop over [sizes]; [images_json] is threaded. *)
Definition export_size (source_img : Image RGBA) (output_dir : string)
    (entry : Z * Z) (images_json : list JSON) : IO (list JSON) :=
  let '(size, scale) := entry in
  let pixel_size := (size * scale)%Z in
  let resized := resize source_img pixel_size pixel_size in
  let filename := icon_filename size scale in
  let filepath := output_dir +:+ "/" +:+ filename in
  save filepath (PNG resized) >>>
  print ("  Created " +:+ filename +:+ " (" +:+ str pixel_size +:+ "x"
                      +:+ str pixel_size +:+ "px)") >>>
  ret (append (JDict [ ("filename", JStr filename);
                       ("idiom", JStr "mac");
                       ("scale", JStr (str scale +:+ "x"));
                       ("size", JStr (str size +:+ "x" +:+ str size)) ])
              images_json).

Definition generate_sizes (source_img : Image RGBA) (output_dir : string) : IO unit :=
  let images_json := [] in
  bind (for_each sizes (export_size source_img output_dir) images_json)
    (fun images_json =>
       (* Write Contents.json *)
       let contents :=
         JDict [ ("images", JList images_json);
                 ("info", JDict [ ("author", JStr "xcode");
                                  ("version", JInt 1) ]) ] in
       let contents_path := output_dir +:+ "/Contents.json" in
       save contents_path (Text (json_dumps contents 2)) >>>
       print ("  Updated " +:+ contents_path)).

(** [os.path.join(path, *parts)] on a POSIX system. *)
Definition ends_with_slash (s : string) : bool :=
  match String.length s with
  | O => false
  | S n => String.eqb (String.substring n 1 s) "/"
  end.

Definition path_join (path : string) (parts : list string) : string :=
  fold_left (fun path b =>
               if String.prefix "/" b then b
               else if String.eqb path "" || ends_with_slash path then path +:+ b
               else path +:+ "/" +:+ b)
            parts path.

(** The [__main__] block; [script_dir] is [os.path.dirname(__file__)]. *)
Definition main (script_dir : string) : IO unit :=
  print "Generating NoteTaker app icon..." >>>
  let icon := create_icon in
  (* Save 1024px master *)
  let build_dir := path_join script_dir [ ".."; "build" ] in
  makedirs build_dir >>>
  let master_path := path_join build_dir [ "app_icon_1024.png" ] in
  save master_path (PNG icon) >>>
  print ("Master icon: " +:+ master_path) >>>
  (* Generate all sizes into the asset catalog *)
  let appiconset :=
    path_join script_dir [ ".."; "Assets.xcassets"; "AppIcon.appiconset" ] in
  print (newline +:+ "Generating icon sizes for " +:+ appiconset +:+ ":") >>>
  generate_sizes icon appiconset >>>
  print (newline +:+ "Done! App icon is ready.").

End Exporter.

(** A platform on which nothing fails, and an imaging library that paints
    nothing: instances to run the definitions on. *)
Definition reliable : Platform := {| fails := fun _ _ => false |}.

Definition blank_imaging : Imaging :=
  {| covers := fun _ _ _ => false;
     resample := fun img _ _ x y => pixel img x y;
     over := fun dst _ => dst |}.

(** The file names and manifest entries of the ten icons, written out. *)
Definition icon_names : list string :=
  [ "icon_16x16.png"; "icon_16x16@2x.png";
    "icon_32x32.png"; "icon_32x32@2x.png";
    "icon_128x128.png"; "icon_128x128@2x.png";
    "icon_256x256.png"; "icon_256x256@2x.png";
    "icon_512x512.png"; "icon_512x512@2x.png" ].

Definition icon_pixels : list Z :=
  [ 16; 32; 32; 64; 128; 256; 256; 512; 512; 1024 ]%Z.

Definition manifest_entry (filename scale size : string) : JSON :=
  JDict [ ("filename", JStr filename); ("idiom", JStr "mac");
          ("scale", JStr scale); ("size", JStr size) ].

Definition manifest : JSON :=
  JDict
    [ ("images",
       JList [ manifest_entry "icon_16x16.png" "1x" "16x16";
               manifest_entry "icon_16x16@2x.png" "2x" "16x16";
               manifest_entry "icon_32x32.png" "1x" "32x32";
               manifest_entry "icon_32x32@2x.png" "2x" "32x32";
               manifest_entry "icon_128x128.png" "1x" "128x128";
               manifest_entry "icon_128x128@2x.png" "2x" "128x128";
               manifest_entry "icon_256x256.png" "1x" "256x256";
               manifest_entry "icon_256x256@2x.png" "2x" "256x256";
               manifest_entry "icon_512x512.png" "1x" "512x512";
               manifest_entry "icon_512x512@2x.png" "2x" "512x512" ]);
      ("info", JDict [ ("author", JStr "xcode"); ("version", JInt 1) ]) ].

(** The saves of a trace, in order. *)
Definition saves (tr : Trace) : list (string * FileData) :=
  flat_map (fun e => match e with EvSave p d => [(p, d)] | _ => [] end) tr.

Definition is_png (d : FileData) : bool :=
  match d with PNG _ => true | Text _ => false end.

(* ===================================================================== *)
(** * Vocabulary of the properties *)
(* ===================================================================== *)

#[local] Open Scope list_scope.
#[local] Open Scope R_scope.

(** The declared bounds of the shield: centre [(cx, cy)], width [w], height [h]. *)
Definition in_box (cx cy w h : R) (p : Point) : Prop :=
  cx - w / 2 <= fst p <= cx + w / 2 /\ cy - h / 2 <= snd p <= cy + h / 2.

Definition on_circle (c : Point) (r : R) (p : Point) : Prop :=
  (fst p - fst c) ^ 2 + (snd p - snd c) ^ 2 = r ^ 2.

(** The four sampled segments of the path. *)
Definition corner_tl (cx cy w h : R) : list Point :=
  map (Shield.top_left cx cy w h) (range 0 11).
Definition corner_tr (cx cy w h : R) : list Point :=
  map (Shield.top_right cx cy w h) (range 0 11).
Definition right_curve (cx cy w h : R) : list Point :=
  map (Shield.curve_right cx cy w h) (range 1 41).
Definition left_curve (cx cy w h : R) : list Point :=
  map (Shield.curve_left cx cy w h) (range 1 41).

(** The gradient's ramps before truncation, linear in the row. *)
Definition highlight_ramp (i : nat) : R := 45 - 45 * INR i / 408.24.
Definition darkening_ramp (i : nat) : R := 35 * INR i / 317.52.

(** A dimension is proportional to the scale factor. *)
Definition proportional (d : R -> R) : Prop :=
  exists k : R, forall s : R, 0 < s -> d s = k * s.

#[local] Open Scope string_scope.
#[local] Open Scope list_scope.

(** Performing a list of operations in order, stopping at the first that raises. *)
Fixpoint perform_all {OS : Platform} (es : list Event) : IO unit :=
  match es with
  | [] => ret tt
  | e :: rest => perform e >>> perform_all rest
  end.

(** The manifest entry of one [(size, scale)] pair. *)
Definition entry_json (entry : Z * Z) : JSON :=
  let '(size, scale) := entry in
  JDict [ ("filename", JStr (icon_filename size scale));
          ("idiom", JStr "mac");
          ("scale", JStr (str scale +:+ "x"));
          ("size", JStr (str size +:+ "x" +:+ str size)) ].

Definition contents_of (images_json : list JSON) : JSON :=
  JDict [ ("images", JList images_json);
          ("info", JDict [ ("author", JStr "xcode"); ("version", JInt 1) ]) ].

Section Plans.
Context {PIL : Imaging}.

(** The operations of one turn of the loop over [sizes]. *)
Definition export_events (source_img : Image RGBA) (output_dir : string)
    (entry : Z * Z) : list Event :=
  let '(size, scale) := entry in
  let pixel_size := (size * scale)%Z in
  [ EvSave (output_dir +:+ "/" +:+ icon_filename size scale)
           (PNG (resize source_img pixel_size pixel_size));
    EvPrint ("  Created " +:+ icon_filename size scale +:+ " (" +:+ str pixel_size
                          +:+ "x" +:+ str pixel_size +:+ "px)") ].

(** The operations of [generate_sizes], in order, when none raises. *)
Definition export_plan (source_img : Image RGBA) (output_dir : string) : list Event :=
  flat_map (export_events source_img output_dir) sizes
  ++ [ EvSave (output_dir +:+ "/Contents.json")
              (Text (json_dumps (contents_of (map entry_json sizes)) 2));
       EvPrint ("  Updated " +:+ output_dir +:+ "/Contents.json") ].

(** The operations of the whole script, in order, when none raises. *)
Definition main_plan (script_dir : string) : list Event :=
  let build_dir := path_join script_dir [ ".."; "build" ] in
  let master_path := path_join build_dir [ "app_icon_1024.png" ] in
  let appiconset :=
    path_join script_dir [ ".."; "Assets.xcassets"; "AppIcon.appiconset" ] in
  [ EvPrint "Generating NoteTaker app icon...";
    EvMakedirs build_dir;
    EvSave master_path (PNG create_icon);
    EvPrint ("Master icon: " +:+ master_path);
    EvPrint (newline +:+ "Generating icon sizes for " +:+ appiconset +:+ ":") ]
  ++ export_plan create_icon appiconset
  ++ [ EvPrint (newline +:+ "Done! App icon is ready.") ].

End Plans.

(** [run] from [tr] performs the operations of [plan] in order up to the
    first that raises, performs nothing after it, and ends with that error;
    it ends normally only when every operation was performed. *)
Definition stops_at_first_failure {OS : Platform}
    (run : IO unit) (plan : list Event) (tr : Trace) : Prop :=
  exists k : nat,
    (k <= length plan)%nat
    /\ snd (run tr) = tr ++ take k plan
    /\ (forall j e, (j < k)%nat -> plan !! j = Some e ->
          fails (tr ++ take j plan) e = false)
    /\ match plan !! k with
       | Some e => fails (tr ++ take k plan) e = true
                   /\ fst (run tr) = Raise (OSError e)
       | None => fst (run tr) = Ok tt
       end.

#[local] Open Scope R_scope.

(** The last of the calls that paints the pixel [(x, y)], if any. *)
Definition last_cover {PIL : Imaging} {P : Type} (calls : list (DrawCall P)) (x y : Z)
    : option (DrawCall P) :=
  List.find (fun c => covers (shape c) x y) (rev calls).

(** ** Inside a polygon

    The even-odd rule: a point is inside when a horizontal ray leaving it
    crosses the boundary an odd number of times. *)

Definition Rltb (a b : R) : bool := if Rlt_dec a b then true else false.








(* ===================================================================== *)
(** * Vocabulary of further properties *)
(* ===================================================================== *)

(** Reflection in the vertical line [x = cx], translation, and scaling
    about a centre. *)
Definition mirror (cx : R) (p : Point) : Point := (2 * cx - fst p, snd p).
Definition translate (dx dy : R) (p : Point) : Point := (fst p + dx, snd p + dy).
Definition scale_about (cx cy k : R) (p : Point) : Point :=
  (cx + k * (fst p - cx), cy + k * (snd p - cy)).

(** The vertex [k] of the top outline: on the top-left corner up to
    [k = 10], then on the top-right corner. *)
Definition upper_vertex (cx cy w h : R) (k : nat) : Point :=
  if (k <=? 10)%nat then Shield.top_left cx cy w h k
  else Shield.top_right cx cy w h (k - 11).

Definition upper_angle (k : nat) : R :=
  if (k <=? 10)%nat then PI + PI / 2 * (INR k / 10)
  else 3 * PI / 2 + PI / 2 * (INR (k - 11) / 10).

(** The vertex [k] steps after the end of the right side: on the right
    curve up to the bottom centre ([k = 40]), then on the left curve. *)
Definition lower_vertex (cx cy w h : R) (k : nat) : Point :=
  if (k <=? 40)%nat then Shield.curve_right cx cy w h k
  else Shield.curve_left cx cy w h (k - 40).

(** Between the left and right bounds, and from the top edge down to the
    lower of the bottom edge and the corners' lower end. *)
Definition in_extent (cx cy w h : R) (p : Point) : Prop :=
  cx - w / 2 <= fst p <= cx + w / 2
  /\ cy - h / 2 <= snd p <= cy - h / 2 + Rmax h (w * 0.08).

(** The row a gradient line is drawn at. *)
Definition row (c : DrawCall RGBA) : R :=
  match shape c with
  | line p _ _ => snd p
  | _ => 0
  end.

(** The horizontal extent a shape is given by. *)
Definition x_span (s : Shape) : R * R :=
  match s with
  | rounded_rectangle x0 _ x1 _ _ => (x0, x1)
  | arc x0 _ x1 _ _ _ _ => (x0, x1)
  | line p q _ => (fst p, fst q)
  | polygon _ => (0, 0)
  end.

(** A bounding box is well formed: its second corner is not before its first. *)
Definition box_ok (s : Shape) : Prop :=
  match s with
  | rounded_rectangle x0 y0 x1 y1 _ => x0 <= x1 /\ y0 <= y1
  | arc x0 y0 x1 y1 _ _ _ => x0 <= x1 /\ y0 <= y1
  | _ => True
  end.

Definition translate_shape (dx dy : R) (s : Shape) : Shape :=
  match s with
  | rounded_rectangle x0 y0 x1 y1 r =>
      rounded_rectangle (x0 + dx) (y0 + dy) (x1 + dx) (y1 + dy) r
  | polygon xy => polygon (map (translate dx dy) xy)
  | line p q wd => line (translate dx dy p) (translate dx dy q) wd
  | arc x0 y0 x1 y1 a b wd =>
      arc (x0 + dx) (y0 + dy) (x1 + dx) (y1 + dy) a b wd
  end.

Definition translate_call {P : Type} (dx dy : R) (c : DrawCall P) : DrawCall P :=
  mkCall (translate_shape dx dy (shape c)) (fill c).

(** The parent of the script's directory, as [os.path.join] spells it. *)
Definition parent_dir (script_dir : string) : string :=
  if String.eqb script_dir "" || ends_with_slash script_dir
  then script_dir +:+ ".." else script_dir +:+ "/..".

(** The directories a trace creates, in order. *)
Definition makedirs_of (tr : Trace) : list string :=
  flat_map (fun e => match e with EvMakedirs p => [p] | _ => [] end) tr.

(** Strings without the letter x. *)
Definition x_char : Ascii.ascii := Ascii.ascii_of_nat 120.

Fixpoint no_x (s : string) : Prop :=
  match s with
  | EmptyString => True
  | String c rest => c <> x_char /\ no_x rest
  end.

(* ===================================================================== *)
(** * Loops as maps; reals and truncation *)
(* ===================================================================== *)

Lemma for_range_append {A : Type} (f : nat -> A) (lo hi : nat) (points : list A) :
  for_range lo hi (fun i => append (f i)) points = points ++ map f (range lo hi).
Proof.
  unfold for_range.
  generalize (range lo hi) as js.
  intros js; revert points.
  induction js as [|j js IH]; intros points; simpl.
  - now rewrite app_nil_r.
  - rewrite IH. unfold append. now rewrite <- app_assoc.
Qed.

Lemma range_length (lo hi : nat) : length (range lo hi) = (hi - lo)%nat.
Proof. unfold range. apply length_seq. Qed.

Lemma in_range (lo hi i : nat) : In i (range lo hi) <-> (lo <= i < hi)%nat.
Proof. unfold range. rewrite in_seq. lia. Qed.

Lemma lookup_map_range {A : Type} (f : nat -> A) (lo hi i : nat) :
  (i < hi - lo)%nat -> map f (range lo hi) !! i = Some (f (lo + i)%nat).
Proof.
  intros Hi. change (map f (range lo hi)) with (f <$> seq lo (hi - lo)).
  rewrite list_lookup_fmap, lookup_seq_lt by exact Hi. reflexivity.
Qed.


Lemma INR_const (n : nat) : INR n = IZR (Z.of_nat n).
Proof. apply INR_IZR_INZ. Qed.

Lemma INR_10 : INR 10 = 10.
Proof. now rewrite INR_const. Qed.

Lemma INR_40 : INR 40 = 40.
Proof. now rewrite INR_const. Qed.

Lemma Int_part_mono (x y : R) : x <= y -> (Int_part x <= Int_part y)%Z.
Proof.
  intros Hxy.
  destruct (base_Int_part x) as [Hx1 Hx2], (base_Int_part y) as [Hy1 Hy2].
  apply Z.lt_succ_r, lt_IZR. rewrite succ_IZR. lra.
Qed.

Lemma Int_part_unique (x : R) (k : Z) : IZR k <= x < IZR k + 1 -> Int_part x = k.
Proof. intros [H1 H2]. symmetry. apply Int_part_spec. lra. Qed.

Lemma py_int_nonneg (x : R) : 0 <= x -> py_int x = Int_part x.
Proof.
  intros Hx. unfold py_int. destruct (Rle_dec 0 x); [reflexivity|contradiction].
Qed.

Lemma py_int_unique (x : R) (k : Z) :
  0 <= x -> IZR k <= x < IZR k + 1 -> py_int x = k.
Proof. intros Hx Hk. rewrite py_int_nonneg by exact Hx. now apply Int_part_unique. Qed.

Lemma py_int_bounds (x : R) : 0 <= x -> IZR (py_int x) <= x < IZR (py_int x) + 1.
Proof.
  intros Hx. rewrite py_int_nonneg by exact Hx.
  destruct (base_Int_part x). lra.
Qed.

(* ===================================================================== *)
(** * The shield path, segment by segment *)
(* ===================================================================== *)

Module ShieldFacts.
Import Shield.

Section Path.
Variables cx cy w h : R.

Lemma path_segments :
  make_shield_path cx cy w h
  = corner_tl cx cy w h ++ corner_tr cx cy w h ++ [(cx + w / 2, cy)]
      ++ right_curve cx cy w h ++ left_curve cx cy w h
      ++ [(cx - w / 2, cy - h / 2 + w * 0.08)].
Proof.
  unfold make_shield_path.
  cbv zeta. rewrite !for_range_append. unfold append.
  change (steps / 4 + 1)%nat with 11%nat.
  change (steps + 1)%nat with 41%nat.
  fold (corner_tl cx cy w h) (corner_tr cx cy w h)
       (right_curve cx cy w h) (left_curve cx cy w h).
  replace (straight_end cy h) with cy by (unfold straight_end, top_y; lra).
  unfold top_y, top_r.
  change ([] ++ corner_tl cx cy w h) with (corner_tl cx cy w h).
  now rewrite <- !app_assoc.
Qed.

Lemma top_left_0 : top_left cx cy w h 0 = (cx - w / 2, cy - h / 2 + w * 0.08).
Proof.
  unfold top_left, top_y, top_r. cbv zeta.
  change (steps / 4)%nat with 10%nat. rewrite INR_10.
  replace (PI + PI / 2 * (INR 0 / 10)) with PI by (simpl; lra).
  rewrite cos_PI, sin_PI. f_equal; lra.
Qed.

Lemma top_left_10 : top_left cx cy w h 10 = (cx - w / 2 + w * 0.08, cy - h / 2).
Proof.
  unfold top_left, top_y, top_r. cbv zeta.
  change (steps / 4)%nat with 10%nat. rewrite INR_10.
  replace (PI + PI / 2 * (10 / 10)) with (3 * (PI / 2)) by lra.
  rewrite cos_3PI2, sin_3PI2. f_equal; lra.
Qed.



Lemma top_left_on_circle (i : nat) :
  on_circle (cx - w / 2 + w * 0.08, cy - h / 2 + w * 0.08) (w * 0.08)
            (top_left cx cy w h i).
Proof.
  unfold on_circle, top_left, top_y, top_r. cbv zeta. cbn [fst snd].
  set (a := PI + _). pose proof (sin2_cos2 a) as H. unfold Rsqr in H. nra.
Qed.

Lemma top_right_on_circle (i : nat) :
  on_circle (cx + w / 2 - w * 0.08, cy - h / 2 + w * 0.08) (w * 0.08)
            (top_right cx cy w h i).
Proof.
  unfold on_circle, top_right, top_y, top_r. cbv zeta. cbn [fst snd].
  set (a := _ + _ * (INR i / _)). pose proof (sin2_cos2 a) as H. unfold Rsqr in H. nra.
Qed.

(** The Bezier samples in closed form, at [t = i / 40]. *)
Lemma curve_right_eq (i : nat) :
  let t := INR i / 40 in
  curve_right cx cy w h i
  = (cx + w / 2 * (1 - t), cy + h * t * (0.7 - 0.2 * t)).
Proof.
  unfold curve_right, bezier, straight_end, bot_y, top_y. cbv zeta.
  change steps with 40%nat. rewrite INR_40. cbn [fst snd].
  f_equal; nra.
Qed.

Lemma curve_left_eq (i : nat) :
  let t := INR i / 40 in
  curve_left cx cy w h i
  = (cx - w / 2 * t, cy + h * (1 - t) * (0.5 + 0.2 * t)).
Proof.
  unfold curve_left, bezier, straight_end, bot_y, top_y. cbv zeta.
  change steps with 40%nat. rewrite INR_40. cbn [fst snd].
  f_equal; nra.
Qed.

Lemma curve_right_bezier (i : nat) :
  curve_right cx cy w h i
  = bezier (cx + w / 2, cy) (cx + w * 0.25, cy + h * 0.35) (cx, cy + h / 2)
           (INR i / 40).
Proof.
  unfold curve_right, straight_end, bot_y, top_y. cbv zeta.
  change steps with 40%nat. rewrite INR_40.
  replace (cy - h / 2 + h * 0.50) with cy by lra. reflexivity.
Qed.

Lemma curve_left_bezier (i : nat) :
  curve_left cx cy w h i
  = bezier (cx, cy + h / 2) (cx - w * 0.25, cy + h * 0.35) (cx - w / 2, cy)
           (INR i / 40).
Proof.
  unfold curve_left, straight_end, bot_y, top_y. cbv zeta.
  change steps with 40%nat. rewrite INR_40.
  replace (cy - h / 2 + h * 0.50) with cy by lra. reflexivity.
Qed.

End Path.

Lemma curve_fraction (i : nat) :
  In i (range 1 41) -> 0 < INR i / 40 <= 1.
Proof.
  rewrite in_range. intros [Hlo Hhi].
  assert (1 <= INR i) by (change 1 with (INR 1); apply le_INR; lia).
  assert (INR i <= 40) by (rewrite <- INR_40; apply le_INR; lia).
  lra.
Qed.

Lemma corner_step (i : nat) : In i (range 0 11) -> 0 <= INR i <= 10.
Proof.
  rewrite in_range. intros [_ Hi].
  split; [apply pos_INR|]. rewrite <- INR_10. apply le_INR; lia.
Qed.

(** Inside the declared bounds, when the corner radius fits the height. *)
Section Box.
Variables cx cy w h : R.
Hypothesis Hw : 0 < w.
Hypothesis Hh : 0 < h.
Hypothesis Hr : w * 0.08 <= h.

Lemma top_left_in_box (i : nat) :
  In i (range 0 11) -> in_box cx cy w h (top_left cx cy w h i).
Proof.
  intros Hf%corner_step.
  unfold top_left, in_box, top_y, top_r. cbv zeta.
  change (steps / 4)%nat with 10%nat. rewrite INR_10.
  cbn [fst snd].
  set (a := PI + PI / 2 * (INR i / 10)).
  pose proof PI_RGT_0 as Hpi.
  assert (Ha : PI <= a <= 2 * PI) by (unfold a; split; nra).
  pose proof (COS_bound a) as [Hc1 Hc2].
  pose proof (SIN_bound a) as [Hs1 _].
  pose proof (sin_le_0 a (proj1 Ha) (proj2 Ha)) as Hs2.
  repeat split; nra.
Qed.

Lemma top_right_in_box (i : nat) :
  In i (range 0 11) -> in_box cx cy w h (top_right cx cy w h i).
Proof.
  intros Hf%corner_step.
  unfold top_right, in_box, top_y, top_r. cbv zeta.
  change (steps / 4)%nat with 10%nat. rewrite INR_10.
  cbn [fst snd].
  set (a := 3 * PI / 2 + PI / 2 * (INR i / 10)).
  pose proof PI_RGT_0 as Hpi.
  assert (Ha : PI <= a <= 2 * PI) by (unfold a; split; nra).
  pose proof (COS_bound a) as [Hc1 Hc2].
  pose proof (SIN_bound a) as [Hs1 _].
  pose proof (sin_le_0 a (proj1 Ha) (proj2 Ha)) as Hs2.
  repeat split; nra.
Qed.

Lemma curve_right_in_box (i : nat) :
  In i (range 1 41) -> in_box cx cy w h (curve_right cx cy w h i).
Proof.
  intros Hi%curve_fraction. rewrite curve_right_eq. cbv zeta.
  unfold in_box. cbn [fst snd].
  set (t := INR i / 40) in *.
  assert (Hq : 0 <= t * (0.7 - 0.2 * t) <= 0.5) by (split; nra).
  replace (h * t * (0.7 - 0.2 * t)) with (h * (t * (0.7 - 0.2 * t))) by lra.
  repeat split; nra.
Qed.

Lemma curve_left_in_box (i : nat) :
  In i (range 1 41) -> in_box cx cy w h (curve_left cx cy w h i).
Proof.
  intros Hi%curve_fraction. rewrite curve_left_eq. cbv zeta.
  unfold in_box. cbn [fst snd].
  set (t := INR i / 40) in *.
  assert (Hq : 0 <= (1 - t) * (0.5 + 0.2 * t) <= 0.5) by (split; nra).
  replace (h * (1 - t) * (0.5 + 0.2 * t)) with (h * ((1 - t) * (0.5 + 0.2 * t))) by lra.
  repeat split; nra.
Qed.

Lemma path_in_box : Forall (in_box cx cy w h) (make_shield_path cx cy w h).
Proof.
  rewrite path_segments. repeat (apply Forall_app; split).
  - apply List.Forall_forall. intros p (i & <- & Hi)%in_map_iff.
    now apply top_left_in_box.
  - apply List.Forall_forall. intros p (i & <- & Hi)%in_map_iff.
    now apply top_right_in_box.
  - constructor; [|constructor]. unfold in_box; simpl. lra.
  - apply List.Forall_forall. intros p (i & <- & Hi)%in_map_iff.
    now apply curve_right_in_box.
  - apply List.Forall_forall. intros p (i & <- & Hi)%in_map_iff.
    now apply curve_left_in_box.
  - constructor; [|constructor]. unfold in_box; simpl. lra.
Qed.

End Box.

(** The closing point sits one corner radius below the top edge. *)
Lemma box_needs_radius (cx cy w h : R) :
  Forall (in_box cx cy w h) (make_shield_path cx cy w h) -> w * 0.08 <= h.
Proof.
  rewrite path_segments, !app_assoc. intros [_ Hl]%Forall_app.
  inversion Hl as [|p l [_ [_ Hy]] _]; subst. simpl in Hy. lra.
Qed.

End ShieldFacts.

(* ===================================================================== *)
(** * The gradient's rows and the mask *)
(* ===================================================================== *)

Module IconFacts.
Import Icon.

Lemma shield_h_eq : shield_h = 907.2.
Proof. unfold shield_h. change (IZR shield_w) with 864. lra. Qed.

Lemma shield_top_eq : shield_top = 68.4.
Proof. unfold shield_top, cy. rewrite shield_h_eq. change (IZR SIZE) with 1024. lra. Qed.

Lemma shield_bot_eq : shield_bot = 975.6.
Proof. unfold shield_bot, cy. rewrite shield_h_eq. change (IZR SIZE) with 1024. lra. Qed.

Lemma highlight_rows_eq : highlight_rows = 408%nat.
Proof.
  unfold highlight_rows. rewrite shield_h_eq.
  rewrite (py_int_unique _ 408) by lra. reflexivity.
Qed.

Lemma darkening_span : py_int (shield_h * 0.35) = 317%Z.
Proof. rewrite shield_h_eq. apply py_int_unique; lra. Qed.

Lemma darkening_rows_eq : darkening_rows = 317%nat.
Proof. unfold darkening_rows. now rewrite darkening_span. Qed.

Lemma gradient_calls_eq :
  gradient_calls = map highlight_line (range 0 408) ++ map darkening_line (range 0 317).
Proof.
  unfold gradient_calls. cbv zeta. rewrite !for_range_append.
  now rewrite highlight_rows_eq, darkening_rows_eq.
Qed.

(** Each alpha is the integer part of its ramp. *)
Lemma highlight_alpha_ramp (i : nat) :
  (i < 408)%nat -> highlight_alpha i = Int_part (highlight_ramp i).
Proof.
  intros Hi%lt_INR.
  replace (INR 408) with 408 in Hi by (now rewrite INR_const).
  pose proof (pos_INR i) as Hp.
  unfold highlight_alpha, highlight_ramp. cbv zeta. rewrite shield_h_eq.
  replace (907.2 * 0.45) with 408.24 by lra.
  replace (45 * (1 - INR i / 408.24)) with (45 - 45 * INR i / 408.24) by lra.
  apply py_int_nonneg. lra.
Qed.

Lemma darkening_alpha_ramp (i : nat) :
  darkening_alpha i = Int_part (darkening_ramp i).
Proof.
  pose proof (pos_INR i) as Hb.
  unfold darkening_alpha, darkening_ramp. cbv zeta. rewrite shield_h_eq.
  replace (907.2 * 0.35) with 317.52 by lra.
  replace (35 * (INR i / 317.52)) with (35 * INR i / 317.52) by lra.
  apply py_int_nonneg. lra.
Qed.

Lemma highlight_alpha_first : highlight_alpha 0 = 45%Z.
Proof.
  rewrite highlight_alpha_ramp by lia.
  apply Int_part_unique. unfold highlight_ramp. simpl INR. lra.
Qed.

Lemma highlight_alpha_last : highlight_alpha 407 = 0%Z.
Proof.
  rewrite highlight_alpha_ramp by lia.
  apply Int_part_unique. unfold highlight_ramp.
  replace (INR 407) with 407 by (now rewrite INR_const). lra.
Qed.

Lemma darkening_alpha_first : darkening_alpha 0 = 0%Z.
Proof.
  rewrite darkening_alpha_ramp.
  apply Int_part_unique. unfold darkening_ramp. simpl INR. lra.
Qed.

Lemma darkening_alpha_last : darkening_alpha 316 = 34%Z.
Proof.
  rewrite darkening_alpha_ramp.
  apply Int_part_unique. unfold darkening_ramp.
  replace (INR 316) with 316 by (now rewrite INR_const). lra.
Qed.

Lemma highlight_alpha_mono (i j : nat) :
  (i <= j)%nat -> (j < 408)%nat -> (highlight_alpha j <= highlight_alpha i)%Z.
Proof.
  intros Hij Hj. rewrite !highlight_alpha_ramp by lia.
  apply Int_part_mono. unfold highlight_ramp. apply le_INR in Hij. lra.
Qed.

Lemma darkening_alpha_mono (i j : nat) :
  (i <= j)%nat -> (darkening_alpha i <= darkening_alpha j)%Z.
Proof.
  intros Hij. rewrite !darkening_alpha_ramp.
  apply Int_part_mono. unfold darkening_ramp. apply le_INR in Hij. lra.
Qed.

Lemma highlight_alpha_range (i : nat) :
  (i < 408)%nat -> (0 <= highlight_alpha i <= 45)%Z.
Proof.
  intros Hi. rewrite <- highlight_alpha_first, <- highlight_alpha_last.
  split; apply highlight_alpha_mono; lia.
Qed.

Lemma darkening_alpha_range (i : nat) :
  (i < 317)%nat -> (0 <= darkening_alpha i <= 34)%Z.
Proof.
  intros Hi. rewrite <- darkening_alpha_first, <- darkening_alpha_last.
  split; apply darkening_alpha_mono; lia.
Qed.

End IconFacts.

Lemma blend8_clear (a : Z) : blend8 0 a 0 = 0%Z.
Proof. reflexivity. Qed.

Lemma blend8_opaque (a : Z) : (0 <= a <= 255)%Z -> blend8 255 a 0 = a.
Proof.
  intros Ha. unfold blend8. cbv zeta. rewrite !Z.shiftr_div_pow2 by lia.
  change (2 ^ 8)%Z with 256%Z. Z.div_mod_to_equations. lia.
Qed.

Section Masking.
Context {PIL : Imaging}.

Lemma pixel_paint {P : Type} (c : DrawCall P) (img : Image P) (x y : Z) :
  pixel (paint c img) x y = if covers (shape c) x y then fill c else pixel img x y.
Proof. reflexivity. Qed.

Lemma draw_snoc {P : Type} (calls : list (DrawCall P)) (c : DrawCall P) (img : Image P) :
  draw (calls ++ [c]) img = paint c (draw calls img).
Proof. unfold draw. now rewrite fold_left_app. Qed.

(** A drawn pixel is the canvas's or the fill of one of the calls. *)
Lemma pixel_draw {P : Type} (calls : list (DrawCall P)) (img : Image P) (x y : Z) :
  pixel (draw calls img) x y = pixel img x y
  \/ exists c, In c calls /\ pixel (draw calls img) x y = fill c.
Proof.
  induction calls as [|c calls IH] using rev_ind; [now left|].
  rewrite draw_snoc, pixel_paint.
  destruct (covers (shape c) x y).
  - right. exists c. split; [apply in_or_app; right; now left | reflexivity].
  - destruct IH as [IH | (c' & Hin & IH)]; [now left|].
    right. exists c'. split; [apply in_or_app; now left | exact IH].
Qed.


End Masking.

(* ===================================================================== *)
(** * The gradient layer, pixel by pixel *)
(* ===================================================================== *)

Lemma range_split (lo i hi : nat) :
  (lo <= i < hi)%nat -> range lo hi = range lo i ++ i :: range (S i) hi.
Proof.
  intros Hi. unfold range.
  replace (hi - lo)%nat with ((i - lo) + S (hi - S i))%nat by lia.
  rewrite seq_app. cbn [seq]. now replace (lo + (i - lo))%nat with i by lia.
Qed.

Section Layer.
Context {PIL : Imaging}.

Lemma draw_size {P : Type} (calls : list (DrawCall P)) (img : Image P) :
  width (draw calls img) = width img /\ height (draw calls img) = height img.
Proof.
  induction calls as [|c calls IH] using rev_ind; [now split|].
  rewrite draw_snoc. exact IH.
Qed.

Lemma last_cover_snoc {P : Type} (calls : list (DrawCall P)) (c : DrawCall P) (x y : Z) :
  last_cover (calls ++ [c]) x y
  = if covers (shape c) x y then Some c else last_cover calls x y.
Proof. unfold last_cover. rewrite rev_unit. reflexivity. Qed.

(** A drawn pixel has the fill of the last call that paints it. *)
Lemma pixel_draw_last {P : Type} (calls : list (DrawCall P)) (img : Image P) (x y : Z) :
  pixel (draw calls img) x y
  = match last_cover calls x y with
    | Some c => fill c
    | None => pixel img x y
    end.
Proof.
  induction calls as [|c calls IH] using rev_ind; [reflexivity|].
  rewrite draw_snoc, pixel_paint, last_cover_snoc.
  now destruct (covers (shape c) x y).
Qed.

Lemma last_cover_none {P : Type} (calls : list (DrawCall P)) (x y : Z) :
  (forall c, In c calls -> covers (shape c) x y = false) ->
  last_cover calls x y = None.
Proof.
  induction calls as [|c calls IH] using rev_ind; intros Hno; [reflexivity|].
  rewrite last_cover_snoc, (Hno c) by (apply in_or_app; right; now left).
  apply IH. intros c' Hc'. apply Hno, in_or_app. now left.
Qed.

Lemma last_cover_after {P : Type} (l1 l2 : list (DrawCall P)) (c : DrawCall P) (x y : Z) :
  covers (shape c) x y = true ->
  (forall c', In c' l2 -> covers (shape c') x y = false) ->
  last_cover (l1 ++ c :: l2) x y = Some c.
Proof.
  intros Hc. induction l2 as [|d l2 IH] using rev_ind; intros Hno.
  - rewrite last_cover_snoc. now rewrite Hc.
  - rewrite app_comm_cons, app_assoc, last_cover_snoc.
    rewrite (Hno d) by (apply in_or_app; right; now left).
    apply IH. intros c' Hc'. apply Hno, in_or_app. now left.
Qed.

Lemma highlight_pixel (x y : Z) (i : nat) :
  (i < 408)%nat ->
  covers (shape (Icon.highlight_line i)) x y = true ->
  (forall j, (i < j < 408)%nat -> covers (shape (Icon.highlight_line j)) x y = false) ->
  (forall j, (j < 317)%nat -> covers (shape (Icon.darkening_line j)) x y = false) ->
  pixel Icon.gradient_img x y = mkRGBA 255 255 255 (Icon.highlight_alpha i).
Proof.
  intros Hi Hc Hh Hd. unfold Icon.gradient_img.
  rewrite pixel_draw_last, IconFacts.gradient_calls_eq.
  rewrite (range_split 0 i 408) by lia. rewrite map_app. cbn [map].
  rewrite <- app_assoc. cbn [app].
  rewrite (last_cover_after _ _ (Icon.highlight_line i)); [reflexivity | exact Hc |].
  intros c [(j & <- & Hj%in_range)%in_map_iff | (j & <- & Hj%in_range)%in_map_iff]%in_app_or.
  - apply Hh. lia.
  - apply Hd. lia.
Qed.

Lemma darkening_pixel (x y : Z) (i : nat) :
  (i < 317)%nat ->
  covers (shape (Icon.darkening_line i)) x y = true ->
  (forall j, (i < j < 317)%nat -> covers (shape (Icon.darkening_line j)) x y = false) ->
  pixel Icon.gradient_img x y = mkRGBA 0 0 0 (Icon.darkening_alpha i).
Proof.
  intros Hi Hc Hd. unfold Icon.gradient_img.
  rewrite pixel_draw_last, IconFacts.gradient_calls_eq.
  rewrite (range_split 0 i 317) by lia. rewrite map_app. cbn [map].
  rewrite app_assoc.
  rewrite (last_cover_after _ _ (Icon.darkening_line i)); [reflexivity | exact Hc |].
  intros c (j & <- & Hj%in_range)%in_map_iff. apply Hd. lia.
Qed.

End Layer.

(* ===================================================================== *)
(** * Inside and outside a polygon *)
(* ===================================================================== *)



Lemma Rltb_spec (a b : R) : Rltb a b = true <-> a < b.
Proof.
  unfold Rltb. destruct (Rlt_dec a b); split; intros H;
    (assumption || reflexivity || discriminate || contradiction).
Qed.





Lemma between_below (m a b t : R) :
  0 <= t <= 1 -> a < m -> b < m -> a + t * (b - a) < m.
Proof. intros Ht Ha Hb. destruct (Rle_dec a b); nra. Qed.

Section Ray.
Variables px py : R.






Section Outside.
Variable pts : list Point.








End Outside.
End Ray.

Module ShieldInterior.
Import Shield ShieldFacts.

Section Interior.
Variables cx cy w h px py : R.
Hypothesis Hw : 0 <= w.
Hypothesis Hh : 0 <= h.
Hypothesis Hx : cx - w / 2 < px < cx + w / 2.
Hypothesis Hy : cy - h / 2 + w * 0.08 < py < cy.







End Interior.




End ShieldInterior.

(* ===================================================================== *)
(** * The glyph's stroke widths *)
(* ===================================================================== *)

Lemma stroke_bounds (lo k : Z) (s : R) :
  0 < s -> (0 < k)%Z ->
  let d := py_max lo (py_int (IZR k * s)) in
  (lo <= d)%Z /\ IZR k * s - 1 < IZR d /\ IZR d <= Rmax (IZR lo) (IZR k * s).
Proof.
  intros Hs Hk d.
  assert (Hx : 0 <= IZR k * s) by (apply IZR_lt in Hk; nra).
  destruct (py_int_bounds _ Hx) as [H1 H2].
  unfold d, py_max. split; [lia|].
  destruct (Z.max_spec lo (py_int (IZR k * s))) as [[Hlt ->] | [Hle ->]].
  - split; [lra|]. eapply Rle_trans; [exact H1 | apply Rmax_r].
  - split; [apply IZR_le in Hle; lra | apply Rmax_l].
Qed.

Lemma stand_w_tenth : Mic.stand_w (1 / 10) = 4%Z.
Proof. unfold Mic.stand_w. rewrite (py_int_unique _ 1) by lra. reflexivity. Qed.

Lemma stand_w_fifth : Mic.stand_w (1 / 5) = 4%Z.
Proof. unfold Mic.stand_w. rewrite (py_int_unique _ 2) by lra. reflexivity. Qed.

(** Two scales at which a dimension is not in the ratio of the scales. *)
Lemma not_proportional (d : R -> R) (a b : R) :
  0 < a -> 0 < b -> d a * b <> d b * a -> ~ proportional d.
Proof.
  intros Ha Hb Hne [k Hk]. apply Hne. rewrite (Hk a Ha), (Hk b Hb). ring.
Qed.

Lemma grille_width_tenth : Mic.grille_width (1 / 10) = 2%Z.
Proof. unfold Mic.grille_width. rewrite (py_int_unique _ 0) by lra. reflexivity. Qed.

Lemma grille_width_fifth : Mic.grille_width (1 / 5) = 2%Z.
Proof. unfold Mic.grille_width. rewrite (py_int_unique _ 0) by lra. reflexivity. Qed.

Lemma cap_radius_hundredth : py_int (Mic.cap_r (1 / 100)) = 0%Z.
Proof. unfold Mic.cap_r, Mic.cap_w. apply py_int_unique; lra. Qed.

Lemma cap_radius_three_hundredths : py_int (Mic.cap_r (3 / 100)) = 1%Z.
Proof. unfold Mic.cap_r, Mic.cap_w. apply py_int_unique; lra. Qed.

Lemma half_of_four : py_int (IZR 4 / 2) = 2%Z.
Proof. apply py_int_unique; lra. Qed.

Lemma base_offset (cy s : R) :
  Mic.base_top cy s - cy = 187.6 * s - IZR (Mic.base_h s) / 3.
Proof.
  unfold Mic.base_top, Mic.stand_top, Mic.stand_h, Mic.arc_y, Mic.arc_h_val,
    Mic.cap_bot, Mic.cap_top, Mic.cap_h. lra.
Qed.

(** The integers of the glyph and what is computed from them. *)
Lemma glyph_integers_not_proportional (cy : R) :
  ~ proportional (fun s => IZR (Mic.grille_width s))
  /\ ~ proportional (fun s => IZR (Mic.arc_thickness s))
  /\ ~ proportional (fun s => IZR (Mic.stand_w s))
  /\ ~ proportional (fun s => IZR (Mic.base_h s))
  /\ ~ proportional (fun s => IZR (py_int (Mic.cap_r s)))
  /\ ~ proportional (fun s => IZR (py_int (IZR (Mic.stand_w s) / 2)))
  /\ ~ proportional (fun s => IZR (py_int (IZR (Mic.base_h s) / 2)))
  /\ ~ proportional (fun s => IZR (Mic.stand_w s) / 2)
  /\ ~ proportional (fun s => Mic.base_top cy s - cy)
  /\ ~ proportional (fun s => Mic.base_top cy s + IZR (Mic.base_h s) - cy).
Proof.
  repeat split.
  - apply (not_proportional _ (1 / 10) (1 / 5)); [lra | lra |].
    rewrite grille_width_tenth, grille_width_fifth. lra.
  - apply (not_proportional _ (1 / 10) (1 / 5)); [lra | lra |].
    change (Mic.arc_thickness ?s) with (Mic.stand_w s).
    rewrite stand_w_tenth, stand_w_fifth. lra.
  - apply (not_proportional _ (1 / 10) (1 / 5)); [lra | lra |].
    rewrite stand_w_tenth, stand_w_fifth. lra.
  - apply (not_proportional _ (1 / 10) (1 / 5)); [lra | lra |].
    change (Mic.base_h ?s) with (Mic.stand_w s).
    rewrite stand_w_tenth, stand_w_fifth. lra.
  - apply (not_proportional _ (1 / 100) (3 / 100)); [lra | lra |].
    rewrite cap_radius_hundredth, cap_radius_three_hundredths. lra.
  - apply (not_proportional _ (1 / 10) (1 / 5)); [lra | lra |].
    rewrite stand_w_tenth, stand_w_fifth, half_of_four. lra.
  - apply (not_proportional _ (1 / 10) (1 / 5)); [lra | lra |].
    change (Mic.base_h ?s) with (Mic.stand_w s).
    rewrite stand_w_tenth, stand_w_fifth, half_of_four. lra.
  - apply (not_proportional _ (1 / 10) (1 / 5)); [lra | lra |].
    rewrite stand_w_tenth, stand_w_fifth. lra.
  - apply (not_proportional _ (1 / 10) (1 / 5)); [lra | lra |].
    rewrite !base_offset. change (Mic.base_h ?s) with (Mic.stand_w s).
    rewrite stand_w_tenth, stand_w_fifth. lra.
  - apply (not_proportional _ (1 / 10) (1 / 5)); [lra | lra |].
    replace (Mic.base_top cy (1 / 10) + IZR (Mic.base_h (1 / 10)) - cy)
      with (Mic.base_top cy (1 / 10) - cy + IZR (Mic.base_h (1 / 10))) by lra.
    replace (Mic.base_top cy (1 / 5) + IZR (Mic.base_h (1 / 5)) - cy)
      with (Mic.base_top cy (1 / 5) - cy + IZR (Mic.base_h (1 / 5))) by lra.
    rewrite !base_offset. change (Mic.base_h ?s) with (Mic.stand_w s).
    rewrite stand_w_tenth, stand_w_fifth. lra.
Qed.

(* ===================================================================== *)
(** * Runs, plans and files *)
(* ===================================================================== *)

#[local] Open Scope string_scope.
#[local] Open Scope list_scope.

Section Runs.
Context {PIL : Imaging} {OS : Platform}.

Lemma bind_assoc {A B C : Type} (m : IO A) (f : A -> IO B) (g : B -> IO C) (tr : Trace) :
  bind (bind m f) g tr = bind m (fun a => bind (f a) g) tr.
Proof. unfold bind. now destruct (m tr) as [[a|e] tr']. Qed.

Lemma bind_ext_l {A B : Type} (m m' : IO A) (k : A -> IO B) (tr : Trace) :
  m tr = m' tr -> bind m k tr = bind m' k tr.
Proof. unfold bind. now intros ->. Qed.

Lemma bind_ext_r {A B : Type} (m : IO A) (k k' : A -> IO B) (tr : Trace) :
  (forall a tr', k a tr' = k' a tr') -> bind m k tr = bind m k' tr.
Proof.
  intros Hk. unfold bind. destruct (m tr) as [[a|e] tr']; [apply Hk | reflexivity].
Qed.

Lemma bind_ret_r (m : IO unit) (tr : Trace) : (m >>> ret tt) tr = m tr.
Proof. unfold bind, ret. now destruct (m tr) as [[[]|e] tr']. Qed.

Lemma perform_all_app (es1 es2 : list Event) (tr : Trace) :
  perform_all (es1 ++ es2) tr = (perform_all es1 >>> perform_all es2) tr.
Proof.
  revert tr. induction es1 as [|e es1 IH]; intros tr; [reflexivity|].
  cbn [app perform_all]. rewrite bind_assoc. apply bind_ext_r. intros _ tr'. apply IH.
Qed.

(** The loop over [sizes] performs the turns' operations and collects the entries. *)
Lemma export_loop (img : Image RGBA) (dir : string) (l : list (Z * Z))
    (acc : list JSON) (tr : Trace) :
  for_each l (export_size img dir) acc tr
  = (perform_all (flat_map (export_events img dir) l)
     >>> ret (acc ++ map entry_json l)) tr.
Proof.
  revert acc tr. induction l as [|[size scale] l IH]; intros acc tr.
  - cbn. unfold bind, ret. now rewrite app_nil_r.
  - cbn [for_each flat_map map export_events app perform_all].
    unfold export_size, save, print.
    rewrite !bind_assoc. apply bind_ext_r. intros _ tr1.
    rewrite !bind_assoc. apply bind_ext_r. intros _ tr2.
    cbn [bind ret]. rewrite IH. unfold append. now rewrite <- app_assoc.
Qed.

Lemma generate_sizes_plan (img : Image RGBA) (dir : string) (tr : Trace) :
  generate_sizes img dir tr = perform_all (export_plan img dir) tr.
Proof.
  unfold generate_sizes, export_plan. cbv zeta.
  rewrite perform_all_app.
  erewrite bind_ext_l by apply export_loop.
  rewrite bind_assoc. apply bind_ext_r. intros _ tr1.
  cbn [perform_all]. unfold save, print, contents_of.
  change (bind (ret ?a) ?k tr1) with (k a tr1). cbv beta.
  apply bind_ext_r. intros _ tr2. symmetry. apply bind_ret_r.
Qed.

Lemma main_plan_eq (script_dir : string) (tr : Trace) :
  main script_dir tr = perform_all (main_plan script_dir) tr.
Proof.
  unfold main, main_plan. cbv zeta.
  unfold print, makedirs, save.
  cbn [app perform_all].
  do 5 (apply bind_ext_r; intros _ ?).
  rewrite perform_all_app.
  erewrite bind_ext_l by apply generate_sizes_plan.
  apply bind_ext_r. intros _ tr2. symmetry. apply bind_ret_r.
Qed.

(** A run performs a prefix of its operations: all of them, or up to the
    first that raises, whose error is the run's outcome. *)
Lemma perform_all_outcome (es : list Event) (tr : Trace) :
  stops_at_first_failure (perform_all es) es tr.
Proof.
  unfold stops_at_first_failure.
  revert tr. induction es as [|e es IH]; intros tr.
  - exists 0%nat. simpl. rewrite app_nil_r. repeat split; auto. intros j e Hj. lia.
  - cbn [perform_all]. unfold bind, perform.
    destruct (fails tr e) eqn:Hf.
    + exists 0%nat. cbn. rewrite app_nil_r. repeat split; auto; [lia|].
      intros j e' Hj. lia.
    + destruct (IH (tr ++ [e])) as (k & Hk & Htr & Hbefore & Hat).
      exists (S k). cbn [length take lookup list_lookup].
      split; [lia|]. split; [|split].
      * rewrite Htr. now rewrite <- app_assoc.
      * intros [|j] e' Hj He'.
        -- cbn in He'. injection He' as <-. cbn. now rewrite app_nil_r.
        -- cbn in He'. cbn [take].
           replace (tr ++ e :: take j es) with ((tr ++ [e]) ++ take j es)
             by now rewrite <- app_assoc.
           apply Hbefore; [lia | exact He'].
      * change ((e :: es) !! S k) with (es !! k).
        replace (tr ++ e :: take k es) with ((tr ++ [e]) ++ take k es)
          by now rewrite <- app_assoc.
        exact Hat.
Qed.

Lemma perform_all_reliable (es : list Event) (tr : Trace) :
  (forall tr' e, fails tr' e = false) ->
  perform_all es tr = (Ok tt, tr ++ es).
Proof.
  intros Hok. revert tr. induction es as [|e es IH]; intros tr; simpl.
  - unfold ret. now rewrite app_nil_r.
  - unfold bind, perform. rewrite Hok, IH. now rewrite <- app_assoc.
Qed.

Lemma perform_all_ok (es : list Event) (tr : Trace) :
  fst (perform_all es tr) = Ok tt -> snd (perform_all es tr) = tr ++ es.
Proof.
  intros Hok. destruct (perform_all_outcome es tr) as (k & Hk & Htr & _ & Hat).
  destruct (es !! k) as [e|] eqn:He.
  - destruct Hat as [_ Hr]. congruence.
  - apply lookup_ge_None in He. rewrite Htr. now rewrite take_ge by lia.
Qed.

End Runs.

Lemma icon_names_convention :
  icon_names
  = map (fun '(size, scale) =>
           "icon_" +:+ str size +:+ "x" +:+ str size
                   +:+ (if (scale =? 2)%Z then "@2x" else "") +:+ ".png")
        sizes.
Proof. vm_compute. reflexivity. Qed.

Lemma icon_names_distinct : NoDup icon_names.
Proof. apply (bool_decide_unpack _). vm_compute. exact I. Qed.

Lemma manifest_entries :
  manifest
  = JDict [ ("images",
             JList (map (fun '(name, (size, scale)) =>
                           manifest_entry name (str scale +:+ "x")
                                          (str size +:+ "x" +:+ str size))
                        (zip icon_names sizes)));
            ("info", JDict [ ("author", JStr "xcode"); ("version", JInt 1) ]) ].
Proof. vm_compute. reflexivity. Qed.

Lemma saves_export_plan {PIL : Imaging} (img : Image RGBA) (dir : string) :
  saves (export_plan img dir)
  = map (fun '(name, px) => (dir +:+ "/" +:+ name, PNG (resize img px px)))
        (zip icon_names icon_pixels)
    ++ [ (dir +:+ "/Contents.json", Text (json_dumps manifest 2)) ].
Proof. vm_compute. reflexivity. Qed.

Lemma saves_take_export_plan {PIL : Imaging} (img : Image RGBA) (dir : string) (k : nat) :
  (k <= 22)%nat ->
  saves (take k (export_plan img dir)) = take ((k + 1) / 2) (saves (export_plan img dir)).
Proof.
  intros Hk.
  do 23 (destruct k as [|k]; [vm_compute; reflexivity|]). lia.
Qed.

Lemma export_saved_data {PIL : Imaging} (img : Image RGBA) (dir : string) :
  map snd (saves (export_plan img dir))
  = map (fun px => PNG (resize img px px)) icon_pixels
    ++ [ Text (json_dumps manifest 2) ].
Proof. rewrite saves_export_plan, map_app, map_map. reflexivity. Qed.

(** What the script saves, in order, whatever directory it runs from. *)
Lemma main_saved_data {PIL : Imaging} (script_dir : string) :
  map snd (saves (main_plan script_dir))
  = PNG create_icon
    :: map (fun px => PNG (resize create_icon px px)) icon_pixels
    ++ [ Text (json_dumps manifest 2) ].
Proof.
  unfold main_plan. cbv zeta.
  set (catalog := path_join script_dir [".."; "Assets.xcassets"; "AppIcon.appiconset"]).
  unfold saves. rewrite !flat_map_app.
  fold (saves (export_plan create_icon catalog)).
  cbn [flat_map app]. rewrite app_nil_r. cbn [map snd].
  now rewrite export_saved_data.
Qed.

(* ===================================================================== *)
(** * Properties of the path builder *)
(* ===================================================================== *)

#[local] Open Scope R_scope.

(** C10: for every centre, width and height, [make_shield_path] returns
    exactly 104 points, and the count does not depend on the input: in
    order, the 11 points of the top-left corner, each on the corner's
    circle of radius [0.08 w]; the 11 points of the top-right corner, each
    on its circle; the point at the end of the straight right side; the 40
    samples of the right Bezier curve, at [t = 1/40, ..., 40/40]; the 40
    samples of the left Bezier curve; the point at the end of the left
    side. *)
Theorem shield_path_length (cx cy w h : R) :
  length (make_shield_path cx cy w h) = 104%nat
  /\ make_shield_path cx cy w h
     = corner_tl cx cy w h ++ corner_tr cx cy w h ++ [(cx + w / 2, cy)]
       ++ right_curve cx cy w h ++ left_curve cx cy w h
       ++ [(cx - w / 2, cy - h / 2 + w * 0.08)]
  /\ (length (corner_tl cx cy w h) = 11 /\ length (corner_tr cx cy w h) = 11
      /\ length (right_curve cx cy w h) = 40
      /\ length (left_curve cx cy w h) = 40)%nat
  /\ (forall i, (i < 11)%nat ->
        exists p, corner_tl cx cy w h !! i = Some p
          /\ p = Shield.top_left cx cy w h i
          /\ on_circle (cx - w / 2 + w * 0.08, cy - h / 2 + w * 0.08) (w * 0.08) p)
  /\ (forall i, (i < 11)%nat ->
        exists p, corner_tr cx cy w h !! i = Some p
          /\ p = Shield.top_right cx cy w h i
          /\ on_circle (cx + w / 2 - w * 0.08, cy - h / 2 + w * 0.08) (w * 0.08) p)
  /\ (forall i, (i < 40)%nat ->
        right_curve cx cy w h !! i
        = Some (Shield.bezier (cx + w / 2, cy) (cx + w * 0.25, cy + h * 0.35)
                              (cx, cy + h / 2) (INR (S i) / 40)))
  /\ (forall i, (i < 40)%nat ->
        left_curve cx cy w h !! i
        = Some (Shield.bezier (cx, cy + h / 2) (cx - w * 0.25, cy + h * 0.35)
                              (cx - w / 2, cy) (INR (S i) / 40)))
  /\ (forall cx' cy' w' h' : R,
        length (make_shield_path cx' cy' w' h')
        = length (make_shield_path cx cy w h)).
Proof.
  assert (Hlen : forall a b c d, length (make_shield_path a b c d) = 104%nat).
  { intros a b c d. rewrite ShieldFacts.path_segments, !length_app.
    unfold corner_tl, corner_tr, right_curve, left_curve.
    rewrite !length_map, !range_length. reflexivity. }
  split; [apply Hlen|].
  split; [apply ShieldFacts.path_segments|].
  split.
  { unfold corner_tl, corner_tr, right_curve, left_curve.
    rewrite !length_map, !range_length. auto. }
  split.
  { intros i Hi. eexists. split; [|split; [reflexivity|]].
    - unfold corner_tl. rewrite lookup_map_range by lia. reflexivity.
    - apply ShieldFacts.top_left_on_circle. }
  split.
  { intros i Hi. eexists. split; [|split; [reflexivity|]].
    - unfold corner_tr. rewrite lookup_map_range by lia. reflexivity.
    - apply ShieldFacts.top_right_on_circle. }
  split.
  { intros i Hi. unfold right_curve. rewrite lookup_map_range by lia.
    now rewrite ShieldFacts.curve_right_bezier. }
  split.
  { intros i Hi. unfold left_curve. rewrite lookup_map_range by lia.
    now rewrite ShieldFacts.curve_left_bezier. }
  intros a b c d. now rewrite !Hlen.
Qed.

(** C2: for every centre, width and height (in particular positive ones),
    [make_shield_path] returns a non-empty sequence whose first and last
    points are the same location, [(cx - w/2, cy - h/2 + 0.08 w)], hence
    within every positive epsilon of each other. *)
Theorem shield_path_closed (cx cy w h : R) :
  make_shield_path cx cy w h <> []
  /\ exists p q,
       head (make_shield_path cx cy w h) = Some p
       /\ last (make_shield_path cx cy w h) = Some q
       /\ p = (cx - w / 2, cy - h / 2 + w * 0.08)
       /\ q = (cx - w / 2, cy - h / 2 + w * 0.08)
       /\ forall eps, 0 < eps ->
            Rabs (fst p - fst q) < eps /\ Rabs (snd p - snd q) < eps.
Proof.
  rewrite ShieldFacts.path_segments.
  split.
  - unfold corner_tl. simpl. discriminate.
  - exists (cx - w / 2, cy - h / 2 + w * 0.08), (cx - w / 2, cy - h / 2 + w * 0.08).
    split; [|split; [|split; [|split]]].
    + unfold corner_tl. change (range 0 11) with (0%nat :: range 1 11).
      simpl map. simpl head. now rewrite ShieldFacts.top_left_0.
    + rewrite !app_assoc. apply last_snoc.
    + reflexivity.
    + reflexivity.
    + intros eps Heps. simpl. rewrite !Rminus_diag, Rabs_R0. auto.
Qed.


(** C9, as stated, fails: with centre [(0, 0)], width 100 and height 1 the
    closing point is [(-50, 7.5)], below the box's lower edge [y = 0.5]. *)
Lemma shield_path_leaves_box :
  ~ (forall cx cy w h : R, 0 < w -> 0 < h ->
       Forall (in_box cx cy w h) (make_shield_path cx cy w h)).
Proof.
  intros H. specialize (H 0 0 100 1 ltac:(lra) ltac:(lra)).
  apply ShieldFacts.box_needs_radius in H. lra.
Qed.

(** C9, amended: for positive width and height, every point of the path
    lies within the bounding box exactly when the corner radius [0.08 w]
    does not exceed the height. *)
Theorem shield_path_in_box (cx cy w h : R) :
  0 < w -> 0 < h ->
  (Forall (in_box cx cy w h) (make_shield_path cx cy w h) <-> w * 0.08 <= h).
Proof.
  intros Hw Hh. split.
  - apply ShieldFacts.box_needs_radius.
  - now apply ShieldFacts.path_in_box.
Qed.

(** The shield of the icon: centre [(512, 522)], 864 wide, 907.2 high. *)
Lemma shield_path_in_box_witness :
  Forall (in_box 512 522 864 907.2) (make_shield_path 512 522 864 907.2)
  <-> 864 * 0.08 <= 907.2.
Proof. apply (shield_path_in_box 512 522 864 907.2); lra. Defined.

(* ===================================================================== *)
(** * Properties of the compositor *)
(* ===================================================================== *)

(** C6: the gradient layer is drawn as 408 highlight rows from the shield's
    top edge down and 317 darkening rows ending at the shield's bottom edge,
    each a line from [x = 0] to [x = SIZE].  The highlight alpha is the
    integer part of a ramp linear in the row: 45 at the top edge, never
    increasing, 0 at the last row.  The darkening alpha is the integer part
    of a ramp linear in the row: 0 at the first row, never decreasing, 34 at
    the last row.  The layer has the size of the canvas, and for every
    imaging library each of its pixels has the fill of the last of these
    lines that paints it: white with the highlight alpha of its row, black
    with the darkening alpha of its row, and transparent where no line
    paints. *)
Theorem gradient_ramp {PIL : Imaging} :
  Icon.gradient_calls
  = map Icon.highlight_line (range 0 408) ++ map Icon.darkening_line (range 0 317)
  /\ (Icon.shield_top = 68.4 /\ Icon.shield_bot = 975.6)
  /\ (forall i, (i < 408)%nat ->
        Icon.highlight_line i
        = mkCall (line (0, Icon.shield_top + INR i) (IZR SIZE, Icon.shield_top + INR i) 0)
                 (mkRGBA 255 255 255 (Int_part (highlight_ramp i))))
  /\ (Icon.highlight_alpha 0 = 45 /\ Icon.highlight_alpha 407 = 0)%Z
  /\ (forall i j, (i <= j)%nat -> (j < 408)%nat ->
        (0 <= Icon.highlight_alpha j <= Icon.highlight_alpha i)%Z
        /\ (Icon.highlight_alpha i <= Icon.highlight_alpha 0)%Z)
  /\ (forall i, (i < 317)%nat ->
        Icon.darkening_line i
        = mkCall (line (0, Icon.shield_bot - 317 + INR i)
                       (IZR SIZE, Icon.shield_bot - 317 + INR i) 0)
                 (mkRGBA 0 0 0 (Int_part (darkening_ramp i))))
  /\ (Icon.darkening_alpha 0 = 0 /\ Icon.darkening_alpha 316 = 34)%Z
  /\ (forall i j, (i <= j)%nat -> (j < 317)%nat ->
        (0 <= Icon.darkening_alpha i <= Icon.darkening_alpha j)%Z
        /\ (Icon.darkening_alpha j <= Icon.darkening_alpha 316)%Z)
  /\ (width Icon.gradient_img = SIZE /\ height Icon.gradient_img = SIZE)
  /\ (forall x y,
        pixel Icon.gradient_img x y
        = match last_cover Icon.gradient_calls x y with
          | Some c => fill c
          | None => mkRGBA 0 0 0 0
          end)
  /\ (forall x y i, (i < 408)%nat ->
        covers (shape (Icon.highlight_line i)) x y = true ->
        (forall j, (i < j < 408)%nat ->
           covers (shape (Icon.highlight_line j)) x y = false) ->
        (forall j, (j < 317)%nat ->
           covers (shape (Icon.darkening_line j)) x y = false) ->
        pixel Icon.gradient_img x y = mkRGBA 255 255 255 (Icon.highlight_alpha i))
  /\ (forall x y i, (i < 317)%nat ->
        covers (shape (Icon.darkening_line i)) x y = true ->
        (forall j, (i < j < 317)%nat ->
           covers (shape (Icon.darkening_line j)) x y = false) ->
        pixel Icon.gradient_img x y = mkRGBA 0 0 0 (Icon.darkening_alpha i))
  /\ (forall x y,
        (forall c, In c Icon.gradient_calls -> covers (shape c) x y = false) ->
        pixel Icon.gradient_img x y = mkRGBA 0 0 0 0).
Proof.
  split; [exact IconFacts.gradient_calls_eq|].
  split; [split; [exact IconFacts.shield_top_eq | exact IconFacts.shield_bot_eq]|].
  split.
  { intros i Hi. unfold Icon.highlight_line. cbv zeta.
    now rewrite IconFacts.highlight_alpha_ramp. }
  split; [split; [exact IconFacts.highlight_alpha_first
                 | exact IconFacts.highlight_alpha_last]|].
  split.
  { intros i j Hij Hj. split; [split|].
    - apply IconFacts.highlight_alpha_range, Hj.
    - now apply IconFacts.highlight_alpha_mono.
    - apply IconFacts.highlight_alpha_mono; lia. }
  split.
  { intros i Hi. unfold Icon.darkening_line. cbv zeta.
    rewrite IconFacts.darkening_span.
    now rewrite IconFacts.darkening_alpha_ramp. }
  split; [split; [exact IconFacts.darkening_alpha_first
                 | exact IconFacts.darkening_alpha_last]|].
  split.
  { intros i j Hij Hj. split; [split|].
    - apply IconFacts.darkening_alpha_range. lia.
    - now apply IconFacts.darkening_alpha_mono.
    - apply IconFacts.darkening_alpha_mono; lia. }
  split.
  { unfold Icon.gradient_img.
    destruct (draw_size Icon.gradient_calls (Image_new SIZE SIZE (mkRGBA 0 0 0 0)))
      as [-> ->]. now split. }
  split; [intros x y; unfold Icon.gradient_img; now rewrite pixel_draw_last|].
  split; [intros x y i; apply highlight_pixel|].
  split; [intros x y i; apply darkening_pixel|].
  intros x y Hno. unfold Icon.gradient_img.
  now rewrite pixel_draw_last, last_cover_none.
Qed.



(** C5, as stated, fails: the stand's width is a dimension of the glyph and
    is not proportional to the scale factor; it is 4 both at scale 1/10 and
    at scale 1/5. *)
Lemma stroke_width_not_proportional :
  ~ proportional (fun s => IZR (Mic.stand_w s)).
Proof.
  intros [k Hk].
  pose proof (Hk (1 / 10) ltac:(lra)) as H1.
  pose proof (Hk (1 / 5) ltac:(lra)) as H2.
  cbv beta in H1, H2. rewrite stand_w_tenth in H1. rewrite stand_w_fifth in H2. lra.
Qed.

(** C5, amended: the capsule's height and the arc's width are 1.7 times the
    capsule's width; the grille is five lines, evenly spaced from the grille
    top to the grille bottom and inset by the same amount from both capsule
    edges; every dimension of the glyph is a function of the scale factor,
    which is the shield's width over 820.  Proportional to it are the
    capsule's width, height and half width, the grille's inset and span,
    the arc's width and half height, the stand's height, the base's width,
    and the offsets from the centre of the capsule's top and bottom, the
    grille's top and bottom, the arc's box and the stand's top and bottom.
    Not proportional are the integers: the stroke widths, [3 scale] and
    [12 scale] truncated and kept at least 2 (grille lines) and 4 (arc
    thickness, stand width, base height); the corner radii passed to
    [rounded_rectangle], [int(cap_r)], [int(stand_w / 2)] and
    [int(base_h / 2)]; and what is computed from them: the stand's
    horizontal extent and the base's top and bottom, whose offset from the
    centre is [187.6 scale - base_h / 3]. *)
Theorem microphone_proportions (cx cy : R) :
  (forall s, Mic.cap_h s = 1.7 * Mic.cap_w s /\ Mic.arc_w s = 1.7 * Mic.cap_w s)
  /\ (forall s, draw_microphone [] cx cy s
       = [ Mic.capsule cx cy s;
           Mic.grille_line cx cy s 0; Mic.grille_line cx cy s 1;
           Mic.grille_line cx cy s 2; Mic.grille_line cx cy s 3;
           Mic.grille_line cx cy s 4;
           Mic.cradle cx cy s; Mic.stand cx cy s; Mic.base cx cy s ])
  /\ (forall s i,
        Mic.grille_line cx cy s i
        = mkCall (line (cx - Mic.cap_w s / 2 + Mic.indent s,
                        Mic.grille_top cy s
                        + INR i * ((Mic.grille_bot cy s - Mic.grille_top cy s) / 4))
                       (cx + Mic.cap_w s / 2 - Mic.indent s,
                        Mic.grille_top cy s
                        + INR i * ((Mic.grille_bot cy s - Mic.grille_top cy s) / 4))
                       (Mic.grille_width s))
                 Mic.line_color)
  /\ (forall s,
        shape (Mic.capsule cx cy s)
        = rounded_rectangle (cx - 50 * s) (cy - 76.5 * s) (cx + 50 * s) (cy + 93.5 * s)
                            (py_int (50 * s))
        /\ shape (Mic.cradle cx cy s)
           = arc (cx - 85 * s) (cy + 56.1 * s) (cx + 85 * s) (cy + 209.1 * s)
                 0 180 (Mic.arc_thickness s)
        /\ shape (Mic.stand cx cy s)
           = rounded_rectangle (cx - IZR (Mic.stand_w s) / 2) (cy + 132.6 * s)
                               (cx + IZR (Mic.stand_w s) / 2) (cy + 187.6 * s)
                               (py_int (IZR (Mic.stand_w s) / 2))
        /\ shape (Mic.base cx cy s)
           = rounded_rectangle (cx - 45 * s)
                               (cy + 187.6 * s - IZR (Mic.base_h s) / 3)
                               (cx + 45 * s)
                               (cy + 187.6 * s - IZR (Mic.base_h s) / 3
                                + IZR (Mic.base_h s))
                               (py_int (IZR (Mic.base_h s) / 2)))
  /\ (proportional Mic.cap_w /\ proportional Mic.cap_h /\ proportional Mic.cap_r
      /\ proportional Mic.indent /\ proportional Mic.arc_w
      /\ proportional Mic.arc_h_val
      /\ proportional Mic.stand_h /\ proportional Mic.base_w
      /\ proportional (fun s => Mic.grille_bot cy s - Mic.grille_top cy s)
      /\ proportional (fun s => cy - Mic.cap_top cy s)
      /\ proportional (fun s => Mic.cap_bot cy s - cy)
      /\ proportional (fun s => cy - Mic.grille_top cy s)
      /\ proportional (fun s => Mic.grille_bot cy s - cy)
      /\ proportional (fun s => Mic.arc_y cy s - cy)
      /\ proportional (fun s => Mic.arc_y cy s + Mic.arc_h_val s * 2 - cy)
      /\ proportional (fun s => Mic.stand_top cy s - cy)
      /\ proportional (fun s => Mic.stand_top cy s + Mic.stand_h s - cy))
  /\ (forall s, 0 < s ->
        ((2 <= Mic.grille_width s)%Z
         /\ 3 * s - 1 < IZR (Mic.grille_width s) <= Rmax 2 (3 * s))
        /\ ((4 <= Mic.stand_w s)%Z
            /\ 12 * s - 1 < IZR (Mic.stand_w s) <= Rmax 4 (12 * s))
        /\ Mic.arc_thickness s = Mic.stand_w s /\ Mic.base_h s = Mic.stand_w s
        /\ 50 * s - 1 < IZR (py_int (Mic.cap_r s)) <= 50 * s
        /\ Mic.base_top cy s - cy = 187.6 * s - IZR (Mic.base_h s) / 3)
  /\ (~ proportional (fun s => IZR (Mic.grille_width s))
      /\ ~ proportional (fun s => IZR (Mic.arc_thickness s))
      /\ ~ proportional (fun s => IZR (Mic.stand_w s))
      /\ ~ proportional (fun s => IZR (Mic.base_h s))
      /\ ~ proportional (fun s => IZR (py_int (Mic.cap_r s)))
      /\ ~ proportional (fun s => IZR (py_int (IZR (Mic.stand_w s) / 2)))
      /\ ~ proportional (fun s => IZR (py_int (IZR (Mic.base_h s) / 2)))
      /\ ~ proportional (fun s => IZR (Mic.stand_w s) / 2)
      /\ ~ proportional (fun s => Mic.base_top cy s - cy)
      /\ ~ proportional (fun s => Mic.base_top cy s + IZR (Mic.base_h s) - cy))
  /\ (Icon.mic_scale = IZR Icon.shield_w / 820
      /\ forall PIL : Imaging,
           @create_icon PIL
           = draw (draw_microphone [] Icon.cx (Icon.cy - 10) Icon.mic_scale)
                  (alpha_composite Icon.base_img Icon.masked_gradient)).
Proof.
  split. { intros s. unfold Mic.cap_h, Mic.arc_w, Mic.cap_w. split; lra. }
  split. { intros s. reflexivity. }
  split.
  { intros s i. unfold Mic.grille_line. cbv zeta.
    change (INR (Mic.num_lines - 1)) with (INR 4).
    replace (INR 4) with 4 by (now rewrite INR_const).
    do 3 f_equal; f_equal; lra. }
  split.
  { intros s.
    unfold Mic.capsule, Mic.cradle, Mic.stand, Mic.base. cbn [shape].
    unfold Mic.base_top, Mic.stand_top, Mic.stand_h, Mic.base_w, Mic.arc_y,
      Mic.arc_h_val, Mic.arc_w, Mic.cap_bot, Mic.cap_top, Mic.cap_r, Mic.cap_h,
      Mic.cap_w.
    repeat split; f_equal; try lra.
    f_equal. lra. }
  split.
  { unfold proportional, Mic.cap_r, Mic.indent, Mic.arc_w, Mic.arc_h_val,
      Mic.stand_h, Mic.base_w, Mic.grille_bot, Mic.grille_top, Mic.stand_top,
      Mic.arc_y, Mic.arc_h_val, Mic.cap_bot, Mic.cap_top, Mic.cap_h, Mic.cap_w.
    repeat split.
    - exists 100. intros; lra.
    - exists 170. intros; lra.
    - exists 50. intros; lra.
    - exists 22. intros; lra.
    - exists 170. intros; lra.
    - exists 76.5. intros; lra.
    - exists 55. intros; lra.
    - exists 90. intros; lra.
    - exists 68. intros; lra.
    - exists 76.5. intros; lra.
    - exists 93.5. intros; lra.
    - exists 56.1. intros; lra.
    - exists 11.9. intros; lra.
    - exists 56.1. intros; lra.
    - exists 209.1. intros; lra.
    - exists 132.6. intros; lra.
    - exists 187.6. intros; lra. }
  split.
  { intros s Hs.
    pose proof (stroke_bounds 2 3 s Hs ltac:(lia)) as (G1 & G2 & G3).
    pose proof (stroke_bounds 4 12 s Hs ltac:(lia)) as (S1 & S2 & S3).
    cbv zeta in *. unfold Mic.grille_width, Mic.stand_w, Mic.arc_thickness, Mic.base_h.
    assert (Hr : 0 <= Mic.cap_r s) by (unfold Mic.cap_r, Mic.cap_w; lra).
    pose proof (py_int_bounds _ Hr) as [R1 R2].
    assert (Mic.cap_r s = 50 * s) as Hcr by (unfold Mic.cap_r, Mic.cap_w; lra).
    repeat split; try assumption; try reflexivity; try lra.
    apply base_offset. }
  split; [apply glyph_integers_not_proportional | split; reflexivity].
Qed.

(* ===================================================================== *)
(** * Properties of the exporter and of the whole run *)
(* ===================================================================== *)

#[local] Open Scope string_scope.
#[local] Open Scope list_scope.

(** C1: when no operation fails, [generate_sizes] ends normally and saves
    exactly eleven files, in order: the ten images, the one for
    [(size, scale)] resized to [size * scale] pixels and named
    [icon_{size}x{size}], with [@2x] exactly when the scale is 2, and [.png];
    then [Contents.json], the encoding of the manifest: ten entries, one per
    pair, each with its filename, idiom "mac", scale "<n>x" and size
    "<w>x<h>", and the info object author "xcode", version 1.  The ten
    names are distinct. *)
Theorem exporter_writes_ten_icons {PIL : Imaging} {OS : Platform}
    (source_img : Image RGBA) (output_dir : string) (tr : Trace) :
  (forall tr' e, fails tr' e = false) ->
  exists evs : list Event,
    generate_sizes source_img output_dir tr = (Ok tt, tr ++ evs)
    /\ saves evs
       = map (fun '(name, px) =>
                (output_dir +:+ "/" +:+ name, PNG (resize source_img px px)))
             (zip icon_names icon_pixels)
         ++ [ (output_dir +:+ "/Contents.json", Text (json_dumps manifest 2)) ]
    /\ length (filter (fun s => is_png (snd s)) (saves evs)) = 10%nat
    /\ (length icon_names = 10%nat /\ NoDup icon_names)
    /\ icon_names
       = map (fun '(size, scale) =>
                "icon_" +:+ str size +:+ "x" +:+ str size
                        +:+ (if (scale =? 2)%Z then "@2x" else "") +:+ ".png")
             sizes
    /\ icon_pixels = map (fun '(size, scale) => (size * scale)%Z) sizes
    /\ (forall px, width (resize source_img px px) = px
                   /\ height (resize source_img px px) = px)
    /\ manifest
       = JDict [ ("images",
                  JList (map (fun '(name, (size, scale)) =>
                                manifest_entry name (str scale +:+ "x")
                                               (str size +:+ "x" +:+ str size))
                             (zip icon_names sizes)));
                 ("info", JDict [ ("author", JStr "xcode"); ("version", JInt 1) ]) ]
    /\ length (zip icon_names sizes) = 10%nat.
Proof.
  intros Hok. exists (export_plan source_img output_dir).
  split. { rewrite generate_sizes_plan. now apply perform_all_reliable. }
  split. { apply saves_export_plan. }
  split. { rewrite saves_export_plan. reflexivity. }
  split. { split; [reflexivity | apply icon_names_distinct]. }
  split. { apply icon_names_convention. }
  split. { reflexivity. }
  split. { intros px. split; reflexivity. }
  split. { apply manifest_entries. }
  reflexivity.
Qed.

(** A run into [AppIcon.appiconset] on a platform where nothing fails. *)
Lemma exporter_writes_ten_icons_witness :
  exists evs : list Event,
    @generate_sizes blank_imaging reliable (Image_new 1024 1024 (mkRGBA 0 0 0 0))
                    "AppIcon.appiconset" []
    = (Ok tt, [] ++ evs)
    /\ map fst (saves evs)
       = map (fun name => "AppIcon.appiconset/" +:+ name) icon_names
         ++ [ "AppIcon.appiconset/Contents.json" ].
Proof.
  destruct (@exporter_writes_ten_icons blank_imaging reliable
              (Image_new 1024 1024 (mkRGBA 0 0 0 0)) "AppIcon.appiconset" [])
    as (evs & Hrun & Hsaves & _).
  - reflexivity.
  - exists evs. split; [exact Hrun|]. rewrite Hsaves. reflexivity.
Defined.

(** C8: whatever fails, [generate_sizes] and the whole script perform their
    operations in order up to the first that raises, perform none after it
    and end with that error; they end normally only when every operation
    was performed.  Of the 22 operations of [generate_sizes], the saves
    among the first [k] are the first [(k + 1) / 2] of its eleven saves, so
    no later image is written, and the manifest, the 21st operation, is
    written only when all ten saves of images before it succeeded. *)
Theorem failed_write_aborts_run {PIL : Imaging} {OS : Platform}
    (source_img : Image RGBA) (output_dir script_dir : string) (tr : Trace) :
  stops_at_first_failure (generate_sizes source_img output_dir)
                         (export_plan source_img output_dir) tr
  /\ stops_at_first_failure (main script_dir) (main_plan script_dir) tr
  /\ length (export_plan source_img output_dir) = 22%nat
  /\ (forall k, (k <= 22)%nat ->
        saves (take k (export_plan source_img output_dir))
        = take ((k + 1) / 2) (saves (export_plan source_img output_dir)))
  /\ (forall k, (k <= 20)%nat ->
        Forall (fun s => is_png (snd s) = true)
               (saves (take k (export_plan source_img output_dir)))).
Proof.
  split; [|split; [|split; [|split]]].
  - destruct (perform_all_outcome (export_plan source_img output_dir) tr)
      as (k & Hk & Htr & Hbefore & Hat).
    exists k. rewrite generate_sizes_plan. auto.
  - destruct (perform_all_outcome (main_plan script_dir) tr)
      as (k & Hk & Htr & Hbefore & Hat).
    exists k. rewrite main_plan_eq. auto.
  - reflexivity.
  - apply saves_take_export_plan.
  - intros k Hk. rewrite saves_take_export_plan by lia.
    assert (Hn : ((k + 1) / 2 <= 10)%nat).
    { apply Nat.lt_succ_r, Nat.Div0.div_lt_upper_bound. lia. }
    rewrite saves_export_plan.
    rewrite take_app_le
      by (rewrite length_map; change (length (zip icon_names icon_pixels)) with 10%nat; lia).
    apply Forall_take. apply List.Forall_forall.
    intros s ([name px] & <- & _)%in_map_iff. reflexivity.
Qed.

(** C7: two runs of the script that both end normally, on any two
    platforms, after any two histories and from any two script
    directories, save the same data in the same order: the same master
    image, the same ten resized images and the same manifest text.  None of
    them depends on where the script runs from or on what happened before;
    from the same directory the two runs perform the same operations
    altogether. *)
Theorem generator_is_deterministic {PIL : Imaging} (OS1 OS2 : Platform)
    (dir1 dir2 : string) (tr1 tr2 : Trace) :
  fst (@main PIL OS1 dir1 tr1) = Ok tt ->
  fst (@main PIL OS2 dir2 tr2) = Ok tt ->
  exists evs1 evs2 : list Event,
    snd (@main PIL OS1 dir1 tr1) = tr1 ++ evs1
    /\ snd (@main PIL OS2 dir2 tr2) = tr2 ++ evs2
    /\ map snd (saves evs1) = map snd (saves evs2)
    /\ map snd (saves evs1)
       = PNG create_icon
         :: map (fun px => PNG (resize create_icon px px)) icon_pixels
         ++ [ Text (json_dumps manifest 2) ]
    /\ (dir1 = dir2 -> evs1 = evs2).
Proof.
  intros H1 H2. exists (main_plan dir1), (main_plan dir2).
  rewrite (@main_plan_eq PIL OS1) in H1 |- *.
  rewrite (@main_plan_eq PIL OS2) in H2 |- *.
  split; [now apply perform_all_ok|].
  split; [now apply perform_all_ok|].
  rewrite !main_saved_data.
  split; [reflexivity|]. split; [reflexivity|].
  now intros ->.
Qed.

(** A run from [scripts] and a run from the current directory, the
    second after earlier output. *)
Lemma generator_is_deterministic_witness :
  exists evs1 evs2 : list Event,
    snd (@main blank_imaging reliable "scripts" []) = [] ++ evs1
    /\ snd (@main blank_imaging reliable "" [EvPrint "earlier"])
       = [EvPrint "earlier"] ++ evs2
    /\ map snd (saves evs1) = map snd (saves evs2).
Proof.
  destruct (@generator_is_deterministic blank_imaging reliable reliable "scripts" ""
              [] [EvPrint "earlier"]) as (evs1 & evs2 & Ha & Hb & Hc & _).
  - rewrite main_plan_eq, perform_all_reliable; reflexivity.
  - rewrite main_plan_eq, perform_all_reliable; reflexivity.
  - exists evs1, evs2. split; [exact Ha|]. split; assumption.
Defined.

(* ===================================================================== *)
(** * Further properties of the path builder *)
(* ===================================================================== *)

#[local] Open Scope R_scope.

Import Shield ShieldFacts.

Lemma in_map_range {A : Type} (f : nat -> A) (lo hi i : nat) :
  (lo <= i < hi)%nat -> In (f i) (map f (range lo hi)).
Proof. intros Hi. apply in_map, in_range, Hi. Qed.

Lemma map_range_ext {A : Type} (f g : nat -> A) (lo hi : nat) :
  (forall i, f i = g i) -> map f (range lo hi) = map g (range lo hi).
Proof. intros H. apply map_ext. exact H. Qed.

Lemma mirror_involutive (cx : R) (p : Point) : mirror cx (mirror cx p) = p.
Proof. unfold mirror. destruct p as [x y]. cbn. f_equal. lra. Qed.

Section Symmetry.
Variables cx cy w h : R.

(** The two corner loops run through mirrored angles. *)
Lemma corner_angles (i : nat) :
  (i <= 10)%nat ->
  let a := PI + PI / 2 * (INR i / 10) in
  let b := 3 * PI / 2 + PI / 2 * (INR (10 - i) / 10) in
  cos b = - cos a /\ sin b = sin a.
Proof.
  intros Hi a b.
  set (th := PI / 2 * (INR i / 10)).
  assert (Ha : a = th + PI) by (unfold a, th; lra).
  assert (Hb : b = 2 * PI - th).
  { unfold b, th. rewrite minus_INR by exact Hi. rewrite INR_10. lra. }
  rewrite Ha, Hb, neg_cos, neg_sin, cos_minus, sin_minus, cos_2PI, sin_2PI.
  split; lra.
Qed.

Lemma mirror_top_left (i : nat) :
  (i <= 10)%nat -> mirror cx (top_left cx cy w h i) = top_right cx cy w h (10 - i).
Proof.
  intros Hi. destruct (corner_angles i Hi) as [Hc Hs]. cbv zeta in Hc, Hs.
  unfold mirror, top_left, top_right, top_y, top_r. cbv zeta.
  change (steps / 4)%nat with 10%nat. rewrite INR_10. cbn [fst snd].
  rewrite Hc, Hs. f_equal; lra.
Qed.

Lemma mirror_top_right (i : nat) :
  (i <= 10)%nat -> mirror cx (top_right cx cy w h i) = top_left cx cy w h (10 - i).
Proof.
  intros Hi. replace i with (10 - (10 - i))%nat at 1 by lia.
  rewrite <- mirror_top_left by lia. apply mirror_involutive.
Qed.

Lemma mirror_curve_right (i : nat) :
  (i <= 40)%nat -> mirror cx (curve_right cx cy w h i) = curve_left cx cy w h (40 - i).
Proof.
  intros Hi. rewrite curve_right_eq, curve_left_eq. cbv zeta.
  rewrite minus_INR by exact Hi. rewrite INR_40.
  unfold mirror. cbn [fst snd]. set (t := INR i / 40).
  replace ((40 - INR i) / 40) with (1 - t) by (unfold t; lra).
  f_equal; nra.
Qed.

Lemma mirror_curve_left (i : nat) :
  (i <= 40)%nat -> mirror cx (curve_left cx cy w h i) = curve_right cx cy w h (40 - i).
Proof.
  intros Hi. replace i with (40 - (40 - i))%nat at 1 by lia.
  rewrite <- mirror_curve_right by lia. apply mirror_involutive.
Qed.

Lemma curve_right_0 : curve_right cx cy w h 0 = (cx + w / 2, cy).
Proof. rewrite curve_right_eq. cbv zeta. simpl INR. f_equal; lra. Qed.

Lemma curve_left_0 : curve_left cx cy w h 0 = (cx, cy + h / 2).
Proof. rewrite curve_left_eq. cbv zeta. simpl INR. f_equal; lra. Qed.

Lemma curve_right_40 : curve_right cx cy w h 40 = (cx, cy + h / 2).
Proof. rewrite curve_right_eq. cbv zeta. rewrite INR_40. f_equal; lra. Qed.

Lemma curve_left_40 : curve_left cx cy w h 40 = (cx - w / 2, cy).
Proof. rewrite curve_left_eq. cbv zeta. rewrite INR_40. f_equal; lra. Qed.

End Symmetry.

(** X1: the vertices of the shield are symmetric about the vertical line
    through the centre: a point is a vertex of the path exactly when its
    mirror image is, for every centre, width and height. *)
Theorem shield_path_symmetric (cx cy w h : R) (p : Point) :
  In p (make_shield_path cx cy w h) <-> In (mirror cx p) (make_shield_path cx cy w h).
Proof.
  assert (Hfwd : forall q, In q (make_shield_path cx cy w h) ->
                           In (mirror cx q) (make_shield_path cx cy w h)).
  { intros q. rewrite path_segments.
    unfold corner_tl, corner_tr, right_curve, left_curve.
    rewrite !in_app_iff.
    intros [Hq | [Hq | [Hq | [Hq | [Hq | Hq]]]]].
    - apply in_map_iff in Hq as (i & <- & Hi%in_range).
      rewrite mirror_top_left by lia. right; left. apply in_map_range. lia.
    - apply in_map_iff in Hq as (i & <- & Hi%in_range).
      rewrite mirror_top_right by lia. left. apply in_map_range. lia.
    - destruct Hq as [<- | []].
      rewrite <- (curve_right_0 cx cy w h), mirror_curve_right by lia.
      do 4 right; left. apply in_map_range. lia.
    - apply in_map_iff in Hq as (i & <- & Hi%in_range).
      rewrite mirror_curve_right by lia.
      destruct (decide (i = 40%nat)) as [-> | Hne].
      + change (40 - 40)%nat with 0%nat.
        rewrite curve_left_0, <- (curve_right_40 cx cy w h).
        do 3 right; left. apply in_map_range. lia.
      + do 4 right; left. apply in_map_range. lia.
    - apply in_map_iff in Hq as (i & <- & Hi%in_range).
      rewrite mirror_curve_left by lia.
      destruct (decide (i = 40%nat)) as [-> | Hne].
      + change (40 - 40)%nat with 0%nat. rewrite curve_right_0.
        right; right; left. now left.
      + do 3 right; left. apply in_map_range. lia.
    - destruct Hq as [<- | []].
      rewrite <- (top_left_0 cx cy w h), mirror_top_left by lia.
      right; left. apply in_map_range. lia. }
  split; [apply Hfwd|].
  intros Hm. apply Hfwd in Hm.
  now rewrite mirror_involutive in Hm.
Qed.

(** X2: moving the centre moves the path: the path built at
    [(cx + dx, cy + dy)] is the path built at [(cx, cy)] with every point
    translated by [(dx, dy)], in the same order. *)
Theorem shield_path_translate (cx cy w h dx dy : R) :
  make_shield_path (cx + dx) (cy + dy) w h
  = map (translate dx dy) (make_shield_path cx cy w h).
Proof.
  rewrite !path_segments. rewrite !map_app.
  unfold corner_tl, corner_tr, right_curve, left_curve. rewrite !map_map.
  f_equal; [|f_equal; [|f_equal; [|f_equal; [|f_equal]]]].
  - apply map_range_ext. intros i.
    unfold translate, top_left, top_y, top_r. cbv zeta. cbn [fst snd]. f_equal; lra.
  - apply map_range_ext. intros i.
    unfold translate, top_right, top_y, top_r. cbv zeta. cbn [fst snd]. f_equal; lra.
  - unfold translate. cbn. do 2 f_equal; lra.
  - apply map_range_ext. intros i.
    rewrite !curve_right_eq. unfold translate. cbv zeta. cbn [fst snd]. f_equal; lra.
  - apply map_range_ext. intros i.
    rewrite !curve_left_eq. unfold translate. cbv zeta. cbn [fst snd]. f_equal; lra.
  - unfold translate. cbn. do 2 f_equal; lra.
Qed.

(** X3: scaling width and height by the same factor [k] scales the path
    about its centre by [k], point by point; with [k = 0] the path
    collapses to the centre. *)
Theorem shield_path_scale (cx cy w h k : R) :
  make_shield_path cx cy (k * w) (k * h)
  = map (scale_about cx cy k) (make_shield_path cx cy w h).
Proof.
  rewrite !path_segments. rewrite !map_app.
  unfold corner_tl, corner_tr, right_curve, left_curve. rewrite !map_map.
  f_equal; [|f_equal; [|f_equal; [|f_equal; [|f_equal]]]].
  - apply map_range_ext. intros i.
    unfold scale_about, top_left, top_y, top_r. cbv zeta. cbn [fst snd].
    set (c := cos _). set (s := sin _). f_equal; nra.
  - apply map_range_ext. intros i.
    unfold scale_about, top_right, top_y, top_r. cbv zeta. cbn [fst snd].
    set (c := cos _). set (s := sin _). f_equal; nra.
  - unfold scale_about. cbn. do 2 f_equal; nra.
  - apply map_range_ext. intros i.
    rewrite !curve_right_eq. unfold scale_about. cbv zeta. cbn [fst snd].
    set (t := INR i / 40). f_equal; nra.
  - apply map_range_ext. intros i.
    rewrite !curve_left_eq. unfold scale_about. cbv zeta. cbn [fst snd].
    set (t := INR i / 40). f_equal; nra.
  - unfold scale_about. cbn. do 2 f_equal; nra.
Qed.

(** ** The outline, vertex by vertex *)

Lemma corner_lengths (cx cy w h : R) :
  length (corner_tl cx cy w h) = 11%nat /\ length (corner_tr cx cy w h) = 11%nat
  /\ length (right_curve cx cy w h) = 40%nat
  /\ length (left_curve cx cy w h) = 40%nat.
Proof.
  unfold corner_tl, corner_tr, right_curve, left_curve.
  rewrite !length_map, !range_length. auto.
Qed.

Lemma path_lookup_upper (cx cy w h : R) (k : nat) :
  (k <= 21)%nat ->
  make_shield_path cx cy w h !! k = Some (upper_vertex cx cy w h k).
Proof.
  intros Hk. rewrite path_segments.
  destruct (corner_lengths cx cy w h) as (Ltl & Ltr & _).
  unfold upper_vertex.
  destruct (Nat.leb_spec k 10) as [Hle | Hgt].
  - rewrite lookup_app_l by lia. unfold corner_tl.
    rewrite lookup_map_range by lia. reflexivity.
  - rewrite lookup_app_r by lia. rewrite lookup_app_l by lia.
    rewrite Ltl. unfold corner_tr. rewrite lookup_map_range by lia. reflexivity.
Qed.

Lemma path_lookup_lower (cx cy w h : R) (k : nat) :
  (k <= 80)%nat ->
  make_shield_path cx cy w h !! (22 + k)%nat = Some (lower_vertex cx cy w h k).
Proof.
  intros Hk. rewrite path_segments.
  destruct (corner_lengths cx cy w h) as (Ltl & Ltr & Lcr & Lcl).
  rewrite lookup_app_r by lia. rewrite lookup_app_r by lia.
  rewrite Ltl, Ltr. replace (22 + k - 11 - 11)%nat with k by lia.
  unfold lower_vertex.
  destruct k as [|k].
  { cbn. now rewrite curve_right_0. }
  rewrite lookup_app_r by (cbn; lia). cbn [length].
  replace (S k - 1)%nat with k by lia.
  destruct (Nat.leb_spec (S k) 40) as [Hle | Hgt].
  - rewrite lookup_app_l by lia. unfold right_curve.
    rewrite lookup_map_range by lia. reflexivity.
  - rewrite lookup_app_r by lia. rewrite Lcr.
    rewrite lookup_app_l by lia.
    unfold left_curve. rewrite lookup_map_range by lia.
    do 2 f_equal. lia.
Qed.

(** The abscissa of the top outline: the left bound plus
    [0.08 w (1 + cos a)] on the left corner, the right bound minus
    [0.08 w (1 - cos a)] on the right one, [a] growing with [k]. *)
Lemma upper_vertex_x (cx cy w h : R) (k : nat) :
  fst (upper_vertex cx cy w h k)
  = if (k <=? 10)%nat then cx - w / 2 + w * 0.08 * (1 + cos (upper_angle k))
    else cx + w / 2 - w * 0.08 * (1 - cos (upper_angle k)).
Proof.
  unfold upper_vertex, upper_angle. destruct (k <=? 10)%nat.
  - unfold top_left, top_r. cbv zeta. cbn [fst].
    change (steps / 4)%nat with 10%nat. rewrite INR_10. lra.
  - unfold top_right, top_r. cbv zeta. cbn [fst].
    change (steps / 4)%nat with 10%nat. rewrite INR_10. lra.
Qed.

Lemma upper_angle_range (k : nat) :
  (k <= 21)%nat -> PI <= upper_angle k <= 2 * PI.
Proof.
  intros Hk. pose proof PI_RGT_0 as Hpi. unfold upper_angle.
  destruct (Nat.leb_spec k 10) as [Hle | Hgt].
  - assert (0 <= INR k <= 10).
    { split; [apply pos_INR|]. rewrite <- INR_10. now apply le_INR. }
    split; nra.
  - assert (0 <= INR (k - 11) <= 10).
    { split; [apply pos_INR|]. rewrite <- INR_10. apply le_INR. lia. }
    split; nra.
Qed.

(** The lower outline in closed form, at [t = k / 40]. *)
Lemma lower_vertex_eq (cx cy w h : R) (k : nat) :
  (k <= 80)%nat ->
  let t := INR k / 40 in
  lower_vertex cx cy w h k
  = (cx + w / 2 * (1 - t),
     if (k <=? 40)%nat then cy + h * t * (0.7 - 0.2 * t)
     else cy + h * (2 - t) * (0.3 + 0.2 * t)).
Proof.
  intros Hk t. unfold lower_vertex.
  destruct (Nat.leb_spec k 40) as [Hle | Hgt].
  - now rewrite curve_right_eq.
  - rewrite curve_left_eq. cbv zeta.
    rewrite minus_INR by lia. rewrite INR_40. fold t.
    replace ((INR k - 40) / 40) with (t - 1) by (unfold t; lra).
    f_equal; nra.
Qed.

(** X4: for a positive width, the top outline runs strictly left to right:
    along the vertices 0 to 21 (top-left corner, flat top, top-right
    corner) the abscissa strictly increases. *)
Theorem upper_outline_monotone (cx cy w h : R) :
  0 < w ->
  forall (i j : nat) (p q : Point),
    (i < j)%nat -> (j <= 21)%nat ->
    make_shield_path cx cy w h !! i = Some p ->
    make_shield_path cx cy w h !! j = Some q ->
    fst p < fst q.
Proof.
  intros Hw i j p q Hij Hj Hp Hq.
  rewrite path_lookup_upper in Hp, Hq by lia.
  injection Hp as <-. injection Hq as <-.
  rewrite !upper_vertex_x.
  pose proof PI_RGT_0 as Hpi.
  pose proof (upper_angle_range i ltac:(lia)) as [Hi1 Hi2].
  pose proof (upper_angle_range j Hj) as [Hj1 Hj2].
  pose proof (COS_bound (upper_angle i)) as [Hci1 Hci2].
  pose proof (COS_bound (upper_angle j)) as [Hcj1 Hcj2].
  destruct (Nat.leb_spec i 10) as [Hi10 | Hi10],
           (Nat.leb_spec j 10) as [Hj10 | Hj10]; try lia.
  - assert (Hlt : upper_angle i < upper_angle j).
    { unfold upper_angle.
      destruct (Nat.leb_spec i 10), (Nat.leb_spec j 10); try lia.
      apply lt_INR in Hij. nra. }
    pose proof (cos_increasing_1 _ _ Hi1 Hi2 Hj1 Hj2 Hlt). nra.
  - nra.
  - assert (Hlt : upper_angle i < upper_angle j).
    { unfold upper_angle.
      destruct (Nat.leb_spec i 10), (Nat.leb_spec j 10); try lia.
      assert (INR (i - 11) < INR (j - 11)) by (apply lt_INR; lia). nra. }
    pose proof (cos_increasing_1 _ _ Hi1 Hi2 Hj1 Hj2 Hlt). nra.
Qed.

(** The first and the last vertex of the top outline of the icon's shield. *)
Lemma upper_outline_monotone_witness :
  fst (upper_vertex 512 522 864 907.2 0) < fst (upper_vertex 512 522 864 907.2 21).
Proof.
  apply (upper_outline_monotone 512 522 864 907.2 ltac:(lra) 0 21);
    try lia; apply path_lookup_upper; lia.
Defined.

(** X5: for positive width and height, the lower outline runs strictly
    right to left: along the vertices 22 to 102 (end of the right side,
    right curve, bottom centre at 62, left curve) the abscissa strictly
    decreases, while the ordinate strictly increases down to the bottom
    centre and strictly decreases after it. *)
Theorem lower_outline_monotone (cx cy w h : R) :
  0 < w -> 0 < h ->
  forall (i j : nat) (p q : Point),
    (22 <= i)%nat -> (i < j)%nat -> (j <= 102)%nat ->
    make_shield_path cx cy w h !! i = Some p ->
    make_shield_path cx cy w h !! j = Some q ->
    fst q < fst p
    /\ ((j <= 62)%nat -> snd p < snd q)
    /\ ((62 <= i)%nat -> snd q < snd p).
Proof.
  intros Hw Hh i j p q Hi Hij Hj Hp Hq.
  replace i with (22 + (i - 22))%nat in Hp by lia.
  replace j with (22 + (j - 22))%nat in Hq by lia.
  rewrite path_lookup_lower in Hp, Hq by lia.
  injection Hp as <-. injection Hq as <-.
  rewrite !lower_vertex_eq by lia. cbv zeta. cbn [fst snd].
  assert (Hlt : INR (i - 22) < INR (j - 22)) by (apply lt_INR; lia).
  assert (H0 : 0 <= INR (i - 22)) by apply pos_INR.
  assert (H80 : INR (j - 22) <= 80).
  { replace 80 with (INR 80) by (now rewrite INR_const). apply le_INR. lia. }
  set (s := INR (i - 22) / 40) in *. set (t := INR (j - 22) / 40) in *.
  assert (Hst : 0 <= s < t) by (unfold s, t; lra).
  assert (Ht2 : t <= 2) by (unfold t; lra).
  split; [nra|]. split.
  - intros Hj62.
    assert (Ht1 : t <= 1).
    { unfold t. assert (INR (j - 22) <= 40)
        by (rewrite <- INR_40; apply le_INR; lia). lra. }
    destruct (Nat.leb_spec (i - 22) 40); [|lia].
    destruct (Nat.leb_spec (j - 22) 40); [|lia].
    assert (0 < (t - s) * (0.7 - 0.2 * (s + t))) by (apply Rmult_lt_0_compat; lra).
    nra.
  - intros Hi62.
    assert (Hs1 : 1 <= s).
    { unfold s. assert (40 <= INR (i - 22))
        by (rewrite <- INR_40; apply le_INR; lia). lra. }
    assert (Hd : 0 < (t - s) * (0.2 * (s + t) - 0.1))
      by (apply Rmult_lt_0_compat; lra).
    destruct (Nat.leb_spec (j - 22) 40); [lia|].
    destruct (Nat.leb_spec (i - 22) 40) as [Hi40|]; [|nra].
    assert (Hs : s = 1).
    { unfold s. replace (i - 22)%nat with 40%nat by lia. rewrite INR_40. lra. }
    rewrite Hs in *. nra.
Qed.

(** From the end of the right side to the bottom centre of the icon's shield. *)
Lemma lower_outline_monotone_witness :
  fst (lower_vertex 512 522 864 907.2 40) < fst (lower_vertex 512 522 864 907.2 0)
  /\ ((62 <= 62)%nat ->
      snd (lower_vertex 512 522 864 907.2 0) < snd (lower_vertex 512 522 864 907.2 40))
  /\ ((62 <= 22)%nat ->
      snd (lower_vertex 512 522 864 907.2 40) < snd (lower_vertex 512 522 864 907.2 0)).
Proof.
  apply (lower_outline_monotone 512 522 864 907.2 ltac:(lra) ltac:(lra) 22 62);
    try lia.
  - apply (path_lookup_lower _ _ _ _ 0). lia.
  - apply (path_lookup_lower _ _ _ _ 40). lia.
Defined.

(** ** The exact extent of the path *)

Section Extent.
Variables cx cy w h : R.
Hypothesis Hw : 0 <= w.
Hypothesis Hh : 0 <= h.

Lemma corner_in_extent (x0 a : R) :
  cx - w / 2 <= x0 - w * 0.08 -> x0 + w * 0.08 <= cx + w / 2 ->
  PI <= a <= 2 * PI ->
  in_extent cx cy w h
    (x0 + w * 0.08 * cos a, (cy - h / 2 + w * 0.08) + w * 0.08 * sin a).
Proof.
  intros Hl Hr Ha.
  pose proof (COS_bound a) as [Hc1 Hc2].
  pose proof (SIN_bound a) as [Hs1 _].
  pose proof (sin_le_0 a (proj1 Ha) (proj2 Ha)) as Hs2.
  pose proof (Rmax_r h (w * 0.08)) as Hm.
  unfold in_extent. cbn [fst snd]. set (M := Rmax h (w * 0.08)) in *.
  repeat split; nra.
Qed.

Lemma curve_in_extent (x y : R) :
  cx - w / 2 <= x <= cx + w / 2 -> cy <= y <= cy + h / 2 ->
  in_extent cx cy w h (x, y).
Proof.
  intros Hx Hy. pose proof (Rmax_l h (w * 0.08)) as Hm.
  unfold in_extent. cbn [fst snd]. set (M := Rmax h (w * 0.08)) in *.
  repeat split; lra.
Qed.

Lemma path_in_extent : Forall (in_extent cx cy w h) (make_shield_path cx cy w h).
Proof.
  pose proof PI_RGT_0 as Hpi.
  rewrite path_segments. repeat (apply Forall_app; split).
  - apply List.Forall_forall. intros p (i & <- & Hi%corner_step)%in_map_iff.
    unfold top_left, top_y, top_r. cbv zeta.
    change (steps / 4)%nat with 10%nat. rewrite INR_10.
    apply corner_in_extent; [lra | lra | split; nra].
  - apply List.Forall_forall. intros p (i & <- & Hi%corner_step)%in_map_iff.
    unfold top_right, top_y, top_r. cbv zeta.
    change (steps / 4)%nat with 10%nat. rewrite INR_10.
    apply corner_in_extent; [lra | lra | split; nra].
  - constructor; [|constructor]. apply curve_in_extent; lra.
  - apply List.Forall_forall. intros p (i & <- & Hi%curve_fraction)%in_map_iff.
    rewrite curve_right_eq. cbv zeta. set (t := INR i / 40) in *.
    assert (Hq : 0 <= t * (0.7 - 0.2 * t) <= 0.5) by (split; nra).
    replace (h * t * (0.7 - 0.2 * t)) with (h * (t * (0.7 - 0.2 * t))) by lra.
    apply curve_in_extent; split; nra.
  - apply List.Forall_forall. intros p (i & <- & Hi%curve_fraction)%in_map_iff.
    rewrite curve_left_eq. cbv zeta. set (t := INR i / 40) in *.
    assert (Hq : 0 <= (1 - t) * (0.5 + 0.2 * t) <= 0.5) by (split; nra).
    replace (h * (1 - t) * (0.5 + 0.2 * t)) with (h * ((1 - t) * (0.5 + 0.2 * t))) by lra.
    apply curve_in_extent; split; nra.
  - constructor; [|constructor].
    pose proof (Rmax_r h (w * 0.08)) as Hm.
    unfold in_extent. cbn [fst snd]. repeat split; lra.
Qed.

End Extent.

(** X6: for every non-negative width and height, the path lies between the
    left and right bounds [cx - w/2] and [cx + w/2] and between the top edge
    [cy - h/2] and [cy - h/2 + max(h, 0.08 w)], and it reaches each of these
    four bounds: this is its exact bounding box, also when the corner radius
    exceeds the height. *)
Theorem shield_path_extent (cx cy w h : R) :
  0 <= w -> 0 <= h ->
  Forall (in_extent cx cy w h) (make_shield_path cx cy w h)
  /\ (exists p, In p (make_shield_path cx cy w h) /\ fst p = cx - w / 2)
  /\ (exists p, In p (make_shield_path cx cy w h) /\ fst p = cx + w / 2)
  /\ (exists p, In p (make_shield_path cx cy w h) /\ snd p = cy - h / 2)
  /\ (exists p, In p (make_shield_path cx cy w h)
                /\ snd p = cy - h / 2 + Rmax h (w * 0.08)).
Proof.
  intros Hw Hh. split; [now apply path_in_extent|].
  rewrite path_segments.
  unfold corner_tl, corner_tr, right_curve, left_curve.
  split; [|split; [|split]].
  - exists (cx - w / 2, cy - h / 2 + w * 0.08). split; [|reflexivity].
    rewrite !in_app_iff. do 5 right. now left.
  - exists (cx + w / 2, cy). split; [|reflexivity].
    rewrite !in_app_iff. do 2 right. left. now left.
  - exists (top_left cx cy w h 10). split; [|now rewrite top_left_10].
    rewrite !in_app_iff. left. apply in_map_range. lia.
  - destruct (Rle_dec (w * 0.08) h) as [Hle | Hgt].
    + exists (curve_right cx cy w h 40). split.
      * rewrite !in_app_iff. do 3 right. left. apply in_map_range. lia.
      * rewrite curve_right_40, Rmax_left by exact Hle. cbn. lra.
    + exists (cx - w / 2, cy - h / 2 + w * 0.08). split.
      * rewrite !in_app_iff. do 5 right. now left.
      * rewrite Rmax_right by lra. reflexivity.
Qed.

(** A shield 100 wide and 1 high, whose corners reach below its bottom edge. *)
Lemma shield_path_extent_witness :
  Forall (in_extent 0 0 100 1) (make_shield_path 0 0 100 1).
Proof. apply (shield_path_extent 0 0 100 1); lra. Defined.

(* ===================================================================== *)
(** * Further properties of the compositor *)
(* ===================================================================== *)

(** X7: the icon's shield fits the canvas: every vertex has its abscissa
    between [PAD] and [SIZE - PAD] and its ordinate between the shield's
    top, which is below row 0, and the shield's bottom, which is above the
    last row [SIZE - 1]. *)
Theorem shield_fits_canvas :
  Forall (fun p => IZR PAD <= fst p <= IZR (SIZE - PAD)
                   /\ 0 < Icon.shield_top <= snd p
                   /\ snd p <= Icon.shield_bot < IZR (SIZE - 1))
         Icon.shield_points.
Proof.
  unfold Icon.shield_points.
  assert (Hbox := path_in_box Icon.cx Icon.cy (IZR Icon.shield_w) Icon.shield_h).
  rewrite IconFacts.shield_h_eq in *.
  rewrite IconFacts.shield_top_eq, IconFacts.shield_bot_eq.
  change (IZR Icon.shield_w) with 864 in *.
  eapply Forall_impl; [apply Hbox; lra|].
  intros [x y] [Hx Hy]. cbn [fst snd] in *.
  unfold Icon.cx, Icon.cy in *. change (IZR SIZE) with 1024 in *.
  change (IZR PAD) with 80. change (IZR (SIZE - PAD)) with 944.
  change (IZR (SIZE - 1)) with 1023. lra.
Qed.

(** X8: every highlight row lies at or below the shield's top, every
    darkening row at least one row above the shield's bottom, and every
    highlight row is more than 183 rows above every darkening row: the two
    bands do not overlap. *)
Theorem gradient_rows_apart (i j : nat) :
  (i < Icon.highlight_rows)%nat -> (j < Icon.darkening_rows)%nat ->
  Icon.shield_top <= row (Icon.highlight_line i)
  /\ row (Icon.highlight_line i) + 183 < row (Icon.darkening_line j)
  /\ row (Icon.darkening_line j) <= Icon.shield_bot - 1.
Proof.
  rewrite IconFacts.highlight_rows_eq, IconFacts.darkening_rows_eq.
  intros Hi Hj.
  unfold row, Icon.highlight_line, Icon.darkening_line. cbv zeta. cbn [shape snd].
  rewrite IconFacts.darkening_span, IconFacts.shield_top_eq, IconFacts.shield_bot_eq.
  assert (0 <= INR i <= 407).
  { split; [apply pos_INR|]. replace 407 with (INR 407) by (now rewrite INR_const).
    apply le_INR. lia. }
  assert (0 <= INR j <= 316).
  { split; [apply pos_INR|]. replace 316 with (INR 316) by (now rewrite INR_const).
    apply le_INR. lia. }
  lra.
Qed.

(** The last highlight row and the first darkening row. *)
Lemma gradient_rows_apart_witness :
  Icon.shield_top <= row (Icon.highlight_line 407)
  /\ row (Icon.highlight_line 407) + 183 < row (Icon.darkening_line 0)
  /\ row (Icon.darkening_line 0) <= Icon.shield_bot - 1.
Proof.
  apply (gradient_rows_apart 407 0).
  - rewrite IconFacts.highlight_rows_eq. lia.
  - rewrite IconFacts.darkening_rows_eq. lia.
Defined.

Section Layers.
Context {PIL : Imaging}.

(** The gradient before masking: white up to alpha 45, or black up to 34. *)
Lemma gradient_pixel (x y : Z) :
  let g := pixel Icon.gradient_img x y in
  ((red g, green g, blue g) = (255, 255, 255)%Z /\ (0 <= alpha g <= 45)%Z)
  \/ ((red g, green g, blue g) = (0, 0, 0)%Z /\ (0 <= alpha g <= 34)%Z).
Proof.
  cbv zeta. unfold Icon.gradient_img.
  destruct (pixel_draw Icon.gradient_calls (Image_new SIZE SIZE (mkRGBA 0 0 0 0)) x y)
    as [-> | (c & Hin & ->)]; [right; cbn; split; [reflexivity | lia]|].
  rewrite IconFacts.gradient_calls_eq in Hin. apply in_app_or in Hin.
  destruct Hin as [(i & <- & Hi%in_range)%in_map_iff
                  | (i & <- & Hi%in_range)%in_map_iff];
    cbn [fill Icon.highlight_line Icon.darkening_line alpha red green blue].
  - left. split; [reflexivity|]. apply IconFacts.highlight_alpha_range. lia.
  - right. split; [reflexivity|]. apply IconFacts.darkening_alpha_range. lia.
Qed.

(** X9: for every imaging backend and every pixel, the masked gradient
    layer is either white with alpha between 0 and 45 or black with alpha
    between 0 and 34: the overlay never hides more than that share of the
    shield's colour. *)
Theorem overlay_is_faint (x y : Z) :
  let p := pixel Icon.masked_gradient x y in
  ((red p, green p, blue p) = (255, 255, 255)%Z /\ (0 <= alpha p <= 45)%Z)
  \/ ((red p, green p, blue p) = (0, 0, 0)%Z /\ (0 <= alpha p <= 34)%Z).
Proof.
  intros p. pose proof (gradient_pixel x y) as Hsrc.
  cbv zeta in Hsrc. unfold p, Icon.masked_gradient.
  cbn [putalpha pixel red green blue alpha composite alpha_band Image_new].
  set (g := pixel Icon.gradient_img x y) in *.
  assert (Hm : pixel Icon.mask_img x y
               = if covers (polygon Icon.shield_points) x y then 255%Z else 0%Z)
    by reflexivity.
  rewrite Hm. destruct (covers (polygon Icon.shield_points) x y).
  - rewrite blend8_opaque by (destruct Hsrc as [[_ H] | [_ H]]; lia). exact Hsrc.
  - rewrite blend8_clear.
    destruct Hsrc as [[H _] | [H _]]; [left | right]; (split; [exact H | lia]).
Qed.

(** X10: for every imaging backend, a pixel of the icon is either the
    composite of the base image and the masked gradient, untouched by the
    glyph, or one of the glyph's two opaque colours. *)
Theorem glyph_pixels (x y : Z) :
  pixel create_icon x y
  = over (pixel Icon.base_img x y) (pixel Icon.masked_gradient x y)
  \/ pixel create_icon x y = Mic.mic_color
  \/ pixel create_icon x y = Mic.line_color.
Proof.
  unfold create_icon. cbv zeta.
  destruct (pixel_draw (draw_microphone [] Icon.cx (Icon.cy - 10) Icon.mic_scale)
              (alpha_composite Icon.base_img Icon.masked_gradient) x y)
    as [-> | (c & Hin & ->)]; [now left | right].
  unfold draw_microphone in Hin. cbv zeta in Hin.
  rewrite for_range_append in Hin. unfold append in Hin.
  rewrite !in_app_iff in Hin.
  destruct Hin as [[[[[[] | [<- | []]] | Hin] | [<- | []]] | [<- | []]] | [<- | []]];
    try (now left).
  apply in_map_iff in Hin as (i & <- & _). now right.
Qed.

End Layers.

(* ===================================================================== *)
(** * Further properties of the microphone glyph *)
(* ===================================================================== *)

Lemma draw_microphone_calls (calls : list (DrawCall RGBA)) (cx cy s : R) :
  draw_microphone calls cx cy s
  = calls ++ [ Mic.capsule cx cy s;
               Mic.grille_line cx cy s 0; Mic.grille_line cx cy s 1;
               Mic.grille_line cx cy s 2; Mic.grille_line cx cy s 3;
               Mic.grille_line cx cy s 4;
               Mic.cradle cx cy s; Mic.stand cx cy s; Mic.base cx cy s ].
Proof.
  unfold draw_microphone. cbv zeta. rewrite for_range_append. unfold append.
  rewrite <- !app_assoc. reflexivity.
Qed.

Lemma stroke_pos (lo : Z) (x : R) : (0 < lo)%Z -> 0 < IZR (py_max lo (py_int x)).
Proof. intros H. apply IZR_lt. unfold py_max. lia. Qed.

(** X11: every shape of the glyph is centred on [cx]: the two ends of its
    horizontal extent are at equal distance from [cx], for every scale. *)
Theorem glyph_is_centred (cx cy s : R) :
  Forall (fun c => fst (x_span (shape c)) + snd (x_span (shape c)) = 2 * cx)
         (draw_microphone [] cx cy s).
Proof.
  rewrite draw_microphone_calls. cbn [app].
  repeat constructor; cbn; lra.
Qed.

(** X12: the bounding boxes [draw_microphone] passes for the capsule, the
    arc, the stand and the base all have their second corner at or after
    their first exactly when the scale is not negative; with a negative
    scale the capsule's box is inverted. *)
Theorem glyph_boxes_well_formed (cx cy s : R) :
  Forall (fun c => box_ok (shape c)) (draw_microphone [] cx cy s) <-> 0 <= s.
Proof.
  rewrite draw_microphone_calls. cbn [app]. split.
  - intros H. apply Forall_inv in H. cbn in H. unfold Mic.cap_w in H. lra.
  - intros Hs.
    pose proof (stroke_pos 4 (12 * s) ltac:(lia)) as Hst.
    unfold Mic.capsule, Mic.grille_line, Mic.cradle, Mic.stand, Mic.base.
    cbv zeta.
    repeat match goal with
           | |- Forall _ _ => constructor
           end; cbn [shape box_ok]; try exact I;
      unfold Mic.cap_bot, Mic.arc_w, Mic.arc_h_val, Mic.stand_h, Mic.base_w,
        Mic.base_h, Mic.stand_w, Mic.cap_h, Mic.cap_w; lra.
Qed.

(** X13: moving the glyph's centre moves the glyph: drawing at
    [(cx + dx, cy + dy)] after translated calls gives the calls drawn at
    [(cx, cy)], each translated by [(dx, dy)], with the same radii, stroke
    widths and colours. *)
Theorem glyph_translate (cx cy s dx dy : R) (calls : list (DrawCall RGBA)) :
  draw_microphone (map (translate_call dx dy) calls) (cx + dx) (cy + dy) s
  = map (translate_call dx dy) (draw_microphone calls cx cy s).
Proof.
  rewrite !draw_microphone_calls, map_app. f_equal. cbn [map].
  unfold translate_call, Mic.capsule, Mic.grille_line, Mic.cradle, Mic.stand, Mic.base.
  cbv zeta. cbn [shape fill translate_shape translate fst snd].
  unfold Mic.base_top, Mic.stand_top, Mic.arc_y, Mic.grille_top, Mic.grille_bot,
    Mic.cap_bot, Mic.cap_top.
  repeat (f_equal; try lra);
    unfold translate; cbn [fst snd]; f_equal; nra.
Qed.

(** X14: for a positive scale, each of the five grille lines is horizontal
    and lies strictly inside the capsule's box: strictly between its left
    and right edges and strictly between its top and bottom. *)
Theorem grille_inside_capsule (cx cy s : R) (i : nat) :
  0 < s -> (i < Mic.num_lines)%nat ->
  match shape (Mic.grille_line cx cy s i), shape (Mic.capsule cx cy s) with
  | line p q _, rounded_rectangle x0 y0 x1 y1 _ =>
      x0 < fst p < fst q /\ fst q < x1
      /\ y0 < snd p < y1 /\ snd q = snd p
  | _, _ => False
  end.
Proof.
  intros Hs Hi. unfold Mic.num_lines in Hi.
  unfold Mic.grille_line, Mic.capsule. cbv zeta. cbn [shape fst snd].
  change (INR (Mic.num_lines - 1)) with (INR 4).
  replace (INR 4) with 4 by (now rewrite INR_const).
  assert (Hb : 0 <= INR i <= 4).
  { split; [apply pos_INR|]. replace 4 with (INR 4) by (now rewrite INR_const).
    apply le_INR. lia. }
  unfold Mic.grille_bot, Mic.grille_top, Mic.indent, Mic.cap_bot, Mic.cap_top,
    Mic.cap_h, Mic.cap_w.
  repeat split; nra.
Qed.

(** The last grille line at scale 1, centre [(512, 512)]. *)
Lemma grille_inside_capsule_witness :
  match shape (Mic.grille_line 512 512 1 4), shape (Mic.capsule 512 512 1) with
  | line p q _, rounded_rectangle x0 y0 x1 y1 _ =>
      x0 < fst p < fst q /\ fst q < x1
      /\ y0 < snd p < y1 /\ snd q = snd p
  | _, _ => False
  end.
Proof.
  apply (grille_inside_capsule 512 512 1 4); [lra | unfold Mic.num_lines; lia].
Defined.

(* ===================================================================== *)
(** * Further properties of the exporter and of the script *)
(* ===================================================================== *)

#[local] Open Scope string_scope.
#[local] Open Scope list_scope.

(** ** Strings and paths *)

Lemma str_app_cons (c : Ascii.ascii) (a b : string) :
  String c a +:+ b = String c (a +:+ b).
Proof. reflexivity. Qed.

Lemma str_app_assoc (a b c : string) : (a +:+ b) +:+ c = a +:+ b +:+ c.
Proof.
  induction a as [|x a IH]; [reflexivity|]. rewrite !str_app_cons. now rewrite IH.
Qed.

Lemma str_app_length (a b : string) :
  String.length (a +:+ b) = (String.length a + String.length b)%nat.
Proof.
  induction a as [|x a IH]; [reflexivity|].
  rewrite str_app_cons. cbn [String.length]. now rewrite IH.
Qed.

Lemma substring_app_skip (a b : string) (n m : nat) :
  String.substring (String.length a + n) m (a +:+ b) = String.substring n m b.
Proof.
  induction a as [|x a IH]; [reflexivity|].
  rewrite str_app_cons. cbn [String.length Nat.add String.substring]. apply IH.
Qed.

(** Whether a path ends with a slash is decided by its last part. *)
Lemma ends_with_slash_app (a b : string) :
  b <> "" -> ends_with_slash (a +:+ b) = ends_with_slash b.
Proof.
  intros Hb. unfold ends_with_slash. rewrite str_app_length.
  destruct b as [|c b]; [contradiction|]. cbn [String.length].
  replace (String.length a + S (String.length b))%nat
    with (S (String.length a + String.length b)) by lia.
  now rewrite substring_app_skip.
Qed.

Lemma str_app_not_nil (a b : string) : b <> "" -> a +:+ b <> "".
Proof. intros Hb. destruct a; [exact Hb | discriminate]. Qed.

(** Joining a relative part [b]. *)
Lemma path_join_step (path b : string) (rest : list string) :
  String.prefix "/" b = false ->
  path_join path (b :: rest)
  = path_join (if String.eqb path "" || ends_with_slash path
               then path +:+ b else path +:+ "/" +:+ b) rest.
Proof. intros Hb. unfold path_join. cbn [fold_left]. now rewrite Hb. Qed.

Lemma path_join_under (root b : string) (rest : list string) :
  root <> "" -> ends_with_slash root = false -> String.prefix "/" b = false ->
  path_join root (b :: rest) = path_join (root +:+ "/" +:+ b) rest.
Proof.
  intros Hne Hsl Hb. rewrite path_join_step by exact Hb.
  rewrite Hsl. apply String.eqb_neq in Hne. now rewrite Hne.
Qed.

Lemma parent_dir_tail (script_dir : string) :
  exists pre, parent_dir script_dir = pre +:+ "..".
Proof.
  unfold parent_dir. destruct (_ || _).
  - now exists script_dir.
  - exists (script_dir +:+ "/"). now rewrite str_app_assoc.
Qed.

Lemma under_tail (pre tail : string) :
  tail <> "" -> ends_with_slash tail = false ->
  pre +:+ tail <> "" /\ ends_with_slash (pre +:+ tail) = false.
Proof.
  intros Hne Hsl. split; [now apply str_app_not_nil|].
  now rewrite ends_with_slash_app.
Qed.

Lemma build_dir_eq (script_dir : string) :
  path_join script_dir [ ".."; "build" ] = parent_dir script_dir +:+ "/build".
Proof.
  rewrite path_join_step by reflexivity.
  replace (if String.eqb script_dir "" || ends_with_slash script_dir
           then script_dir +:+ ".." else script_dir +:+ "/" +:+ "..")
    with (parent_dir script_dir) by reflexivity.
  destruct (parent_dir_tail script_dir) as [pre ->].
  destruct (under_tail pre ".." ltac:(discriminate) eq_refl) as [Hne Hsl].
  rewrite path_join_under by (assumption || reflexivity). reflexivity.
Qed.

Lemma master_path_eq (script_dir : string) :
  path_join (path_join script_dir [ ".."; "build" ]) [ "app_icon_1024.png" ]
  = (parent_dir script_dir +:+ "/build") +:+ "/app_icon_1024.png".
Proof.
  rewrite build_dir_eq.
  destruct (under_tail (parent_dir script_dir) "/build" ltac:(discriminate) eq_refl)
    as [Hne Hsl].
  rewrite path_join_under by (assumption || reflexivity). reflexivity.
Qed.

Lemma appiconset_eq (script_dir : string) :
  path_join script_dir [ ".."; "Assets.xcassets"; "AppIcon.appiconset" ]
  = parent_dir script_dir +:+ "/Assets.xcassets/AppIcon.appiconset".
Proof.
  rewrite path_join_step by reflexivity.
  replace (if String.eqb script_dir "" || ends_with_slash script_dir
           then script_dir +:+ ".." else script_dir +:+ "/" +:+ "..")
    with (parent_dir script_dir) by reflexivity.
  destruct (parent_dir_tail script_dir) as [pre Hpre].
  destruct (under_tail pre ".." ltac:(discriminate) eq_refl) as [Hne Hsl].
  rewrite <- Hpre in Hne, Hsl.
  rewrite path_join_under by (assumption || reflexivity).
  destruct (under_tail (parent_dir script_dir) "/Assets.xcassets"
              ltac:(discriminate) eq_refl) as [Hne2 Hsl2].
  rewrite path_join_under by (assumption || reflexivity).
  cbn [path_join fold_left]. now rewrite str_app_assoc.
Qed.

(** The paths the script saves to, in order. *)
Lemma main_saved_paths {PIL : Imaging} (script_dir : string) :
  map fst (saves (main_plan script_dir))
  = ((parent_dir script_dir +:+ "/build") +:+ "/app_icon_1024.png")
    :: map (fun name => (parent_dir script_dir
                         +:+ "/Assets.xcassets/AppIcon.appiconset") +:+ "/" +:+ name)
           icon_names
    ++ [ (parent_dir script_dir +:+ "/Assets.xcassets/AppIcon.appiconset")
         +:+ "/Contents.json" ].
Proof.
  unfold main_plan. cbv zeta. rewrite master_path_eq, appiconset_eq.
  set (catalog := parent_dir script_dir +:+ "/Assets.xcassets/AppIcon.appiconset").
  set (build := parent_dir script_dir +:+ "/build").
  unfold saves. rewrite !flat_map_app.
  fold (saves (export_plan create_icon catalog)).
  rewrite saves_export_plan. cbn [flat_map app map fst].
  reflexivity.
Qed.

Lemma saves_app (tr1 tr2 : Trace) : saves (tr1 ++ tr2) = saves tr1 ++ saves tr2.
Proof. unfold saves. apply flat_map_app. Qed.

Lemma makedirs_of_app (tr1 tr2 : Trace) :
  makedirs_of (tr1 ++ tr2) = makedirs_of tr1 ++ makedirs_of tr2.
Proof. unfold makedirs_of. apply flat_map_app. Qed.

Lemma main_makedirs {PIL : Imaging} (script_dir : string) :
  makedirs_of (main_plan script_dir) = [ parent_dir script_dir +:+ "/build" ].
Proof. unfold main_plan. cbv zeta. rewrite build_dir_eq. reflexivity. Qed.

(** X15: every run of the script, whatever fails, creates no directory but
    the build directory beside the script's parent and saves to no path
    but these twelve, in this order and without skipping one: the master
    image in the build directory, then the ten icons and [Contents.json]
    in [Assets.xcassets/AppIcon.appiconset] under the same parent.  A run
    that ends normally creates that directory and saves to all twelve.
    The parent is spelled [script_dir/..] and not resolved; for an empty
    script directory it is [..]. *)
Theorem main_output_paths {PIL : Imaging} {OS : Platform}
    (script_dir : string) (tr : Trace) :
  let root := parent_dir script_dir in
  let build := root +:+ "/build" in
  let catalog := root +:+ "/Assets.xcassets/AppIcon.appiconset" in
  let outputs :=
    (build +:+ "/app_icon_1024.png")
    :: map (fun name => catalog +:+ "/" +:+ name) icon_names
    ++ [ catalog +:+ "/Contents.json" ] in
  (exists evs : list Event,
     snd (main script_dir tr) = tr ++ evs
     /\ (exists rest, [ build ] = makedirs_of evs ++ rest)
     /\ (exists rest, outputs = map fst (saves evs) ++ rest)
     /\ (fst (main script_dir tr) = Ok tt ->
         makedirs_of evs = [ build ] /\ map fst (saves evs) = outputs))
  /\ (script_dir = "" -> root = "..")
  /\ (script_dir <> "" -> ends_with_slash script_dir = false ->
      root = script_dir +:+ "/..").
Proof.
  intros root build catalog outputs. split; [|split].
  - destruct (perform_all_outcome (main_plan script_dir) tr) as (k & _ & Htr & _).
    exists (take k (main_plan script_dir)). rewrite main_plan_eq.
    split; [exact Htr|]. split; [|split].
    + exists (makedirs_of (drop k (main_plan script_dir))).
      now rewrite <- makedirs_of_app, take_drop, main_makedirs.
    + exists (map fst (saves (drop k (main_plan script_dir)))).
      rewrite <- map_app, <- saves_app, take_drop. symmetry. apply main_saved_paths.
    + intros Hok. apply perform_all_ok in Hok. rewrite Htr in Hok.
      apply app_inv_head in Hok. rewrite Hok.
      split; [apply main_makedirs | apply main_saved_paths].
  - intros ->. reflexivity.
  - intros Hne Hsl. unfold root, parent_dir. rewrite Hsl.
    apply String.eqb_neq in Hne. now rewrite Hne.
Qed.

(** ** File names *)

Lemma pretty_N_char_no_x (n : N) : pretty_N_char n <> x_char.
Proof. unfold pretty_N_char. repeat case_match; discriminate. Qed.

Lemma pretty_N_go_no_x (n : N) (s : string) : no_x s -> no_x (pretty_N_go n s).
Proof.
  revert s. induction (N.lt_wf_0 n) as [n _ IH]; intros s Hs.
  assert (n = 0 \/ 0 < n)%N as [-> | Hpos] by lia.
  - now rewrite pretty_N_go_0.
  - rewrite pretty_N_go_step by exact Hpos. apply IH.
    + now apply N.div_lt.
    + split; [apply pretty_N_char_no_x | exact Hs].
Qed.

Lemma str_no_x (z : Z) : no_x (str z).
Proof.
  unfold str, pretty, pretty_Z.
  assert (Hp : forall p : positive, no_x (pretty p)).
  { intros p. unfold pretty, pretty_positive, pretty, pretty_N.
    case_decide; [repeat split; discriminate|]. now apply pretty_N_go_no_x. }
  destruct z as [|p|p]; [repeat split; discriminate | apply Hp |].
  rewrite str_app_cons. split; [discriminate | apply Hp].
Qed.

(** Two strings split at their first [x] agree part by part. *)
Lemma split_at_x (a b r1 r2 : string) :
  no_x a -> no_x b ->
  a +:+ String x_char r1 = b +:+ String x_char r2 -> a = b /\ r1 = r2.
Proof.
  revert b. induction a as [|c a IH]; intros [|d b] Ha Hb Heq.
  - cbn in Heq. injection Heq as ->. now split.
  - rewrite str_app_cons in Heq. cbn in Heq. injection Heq as Hc _.
    destruct Hb as [Hd _]. now symmetry in Hc.
  - rewrite str_app_cons in Heq. cbn in Heq. injection Heq as Hc _.
    destruct Ha as [Hc' _]. contradiction.
  - rewrite !str_app_cons in Heq. injection Heq as -> Heq.
    destruct Ha as [_ Ha], Hb as [_ Hb].
    destruct (IH b Ha Hb Heq) as [-> ->]. now split.
Qed.

(** X17: two icon entries get the same file name exactly when they have
    the same size and agree on whether the scale is 2: the name encodes the
    size, but of the scale only whether it is 2, so any two scales other
    than 2 would share a name and the later save would replace the earlier
    file. *)
Theorem icon_filename_collision (size1 scale1 size2 scale2 : Z) :
  icon_filename size1 scale1 = icon_filename size2 scale2
  <-> size1 = size2 /\ (scale1 = 2%Z <-> scale2 = 2%Z).
Proof.
  unfold icon_filename. split.
  - intros Heq. apply (inj (String.app "icon_")) in Heq.
    change "x" with (String x_char "") in Heq.
    rewrite !(str_app_cons x_char "") in Heq.
    change ("" +:+ ?s) with s in Heq.
    apply split_at_x in Heq as [Hsize Hrest]; [|apply str_no_x..].
    apply (inj pretty) in Hsize. subst size2. split; [reflexivity|].
    apply (inj (String.app (str size1))) in Hrest.
    destruct (Z.eqb_spec scale1 2), (Z.eqb_spec scale2 2);
      try discriminate Hrest; tauto.
  - intros [-> Hs].
    destruct (Z.eqb_spec scale1 2) as [H1|H1], (Z.eqb_spec scale2 2) as [H2|H2];
      tauto.
Qed.
